(** * The typed history store of NEML ([src/src/history.h])

    A [History] packs named state variables of different tensorial types
    into one flat buffer of doubles.  This development embeds the class as
    it is written in [history.h]: the type registry ([StorageType],
    [GetStorageType], [GetStorageSize]), the member templates [add] and
    [get], the specialisation [get<double>] and the accessors [get_loc] and
    [get_type].  The member functions whose bodies live in the
    implementation file ([resize], [size], the three [error_if_*] checks,
    the constructors) and the tensor classes of [math/tensors.h] are
    modelled from the prose specification; each such definition says so.

    Conventions.
    - [size_t] is [nat]: the only arithmetic on it is the growth of [size_]
      by a footprint of at most 9, and an owning ledger allocates [size_]
      doubles at every growth, so the count stays far below [2^64].
    - A [double] is an opaque value of a type [scalar]; nothing here
      computes with it, values are only moved in and out of memory.
    - Memory is a heap of arrays (blocks); a [double *] is a block together
      with an offset counted in doubles.
    - A C++ exception leaves the mutations made before the [throw] in
      place, so a member function is a state transformer that returns the
      new state together with either a result or the error thrown. *)

From stdpp Require Import gmap strings list fin_maps.

(** ** Typed-slot registry (history.h, lines 12-39) *)

(** [enum StorageType]. *)
Inductive StorageType : Set :=
  | TYPE_VECTOR
  | TYPE_SCALAR
  | TYPE_ARRAY
  | TYPE_RANKTWO
  | TYPE_SYMMETRIC
  | TYPE_SKEW
  | TYPE_ROT.

#[global] Instance StorageType_eq_dec : EqDecision StorageType.
Proof. solve_decision. Defined.

(** The integer behind every enumerator. *)
Definition StorageType_value (t : StorageType) : Z :=
  match t with
  | TYPE_VECTOR => 0
  | TYPE_SCALAR => 1
  | TYPE_ARRAY => 2
  | TYPE_RANKTWO => 3
  | TYPE_SYMMETRIC => 4
  | TYPE_SKEW => 5
  | TYPE_ROT => 6
  end.

(** All enumerators, in declaration order. *)
Definition storage_types : list StorageType :=
  [TYPE_VECTOR; TYPE_SCALAR; TYPE_ARRAY; TYPE_RANKTWO; TYPE_SYMMETRIC;
   TYPE_SKEW; TYPE_ROT].

(** The types for which [GetStorageType] and [GetStorageSize] are
    specialised.  The primary templates are declared without a body, so a
    template argument outside this type has no registry entry at all; a
    program that builds uses [add<T>] and [get<T>] at these six types
    only. *)
Inductive ValueType : Set :=
  | T_Vector
  | T_RankTwo
  | T_Symmetric
  | T_Skew
  | T_Orientation
  | T_double.

#[global] Instance ValueType_eq_dec : EqDecision ValueType.
Proof. solve_decision. Defined.


Definition GetStorageType (T : ValueType) : StorageType :=
  match T with
  | T_Vector => TYPE_VECTOR
  | T_RankTwo => TYPE_RANKTWO
  | T_Symmetric => TYPE_SYMMETRIC
  | T_Skew => TYPE_SKEW
  | T_Orientation => TYPE_ROT
  | T_double => TYPE_SCALAR
  end.

Definition GetStorageSize (T : ValueType) : nat :=
  match T with
  | T_Vector => 3
  | T_RankTwo => 9
  | T_Symmetric => 6
  | T_Skew => 3
  | T_Orientation => 4
  | T_double => 1
  end.

(** ** Using the registry at an arbitrary type *)






(** ** Pointers and qualifiers *)

(** A [double *]: an array and a position in it. *)
Record Ptr : Set := mkPtr { block : nat; offset : nat }.

#[global] Instance Ptr_eq_dec : EqDecision Ptr.
Proof. solve_decision. Defined.

(** [p + k]. *)
Definition ptr_add (p : Ptr) (k : nat) : Ptr := mkPtr (block p) (offset p + k).

(** Block 0 is never handed out by the allocator. *)
Definition nullptr : Ptr := mkPtr 0 0.

(** cv-qualification of an object expression, a reference or a view. *)
Inductive Qual : Set := Const | Mutable.

#[global] Instance Qual_eq_dec : EqDecision Qual.
Proof. solve_decision. Defined.

(** A pointer is outside the [n] cells that start at [p]. *)
Definition outside (p : Ptr) (n : nat) (p' : Ptr) : Prop :=
  block p' ≠ block p ∨ offset p' < offset p ∨ offset p + n ≤ offset p'.

(** What [get<T>] hands back: for a tensor type an object of class [T]
    built by the constructor of [T] that takes a [double *], a view of the
    pointed region; for [double] the reference [double &] itself. *)
Inductive Handle : Set :=
  | TensorView (T : ValueType) (q : Qual) (p : Ptr)
  | ScalarRef (q : Qual) (p : Ptr).

Definition handle_ptr (hd : Handle) : Ptr :=
  match hd with TensorView _ _ p => p | ScalarRef _ p => p end.

Definition handle_qual (hd : Handle) : Qual :=
  match hd with TensorView _ q _ => q | ScalarRef q _ => q end.

Definition handle_size (hd : Handle) : nat :=
  match hd with TensorView T _ _ => GetStorageSize T | ScalarRef _ _ => 1 end.

(** The error kinds of the ledger, and [std::out_of_range] of [map::at]. *)
Inductive Error : Set :=
  | DuplicateDeclaration
  | UnknownName
  | TypeMismatch
  | UnsupportedResize
  | OutOfRange.

Inductive Outcome (A : Type) : Type :=
  | Ok (a : A)
  | Throw (e : Error).
Arguments Ok {A} a.
Arguments Throw {A} e.

(** [std::map::insert]: the pair is added only when the key is absent. *)
Definition std_map_insert {V : Type} (k : string) (v : V)
    (m : gmap string V) : gmap string V :=
  match m !! k with
  | Some _ => m
  | None => <[k := v]> m
  end.

(** Sum of the footprints of a list of declarations. *)
Definition footprints (decls : list (string * ValueType)) : nat :=
  sum_list (GetStorageSize ∘ snd <$> decls).

(** The data members of [class History]. *)
Record History : Set := mkHistory {
  size_ : nat;
  store_ : bool;
  storage_ : Ptr;
  loc_ : gmap string nat;
  type_ : gmap string StorageType
}.

Definition set_loc_ (m : gmap string nat) (h : History) : History :=
  mkHistory (size_ h) (store_ h) (storage_ h) m (type_ h).

Definition set_type_ (m : gmap string StorageType) (h : History) : History :=
  mkHistory (size_ h) (store_ h) (storage_ h) (loc_ h) m.

(** A reference to a data member of the ledger: where it reads, where it
    writes, and whether the reference is to const. *)
Record Ref (A : Type) : Type := mkRef {
  ref_qual : Qual;
  ref_get : History -> A;
  ref_set : A -> History -> History
}.
Arguments mkRef {A} _ _ _.
Arguments ref_qual {A} _.
Arguments ref_get {A} _ _.
Arguments ref_set {A} _ _ _.

(** [const std::map<...> & get_loc() const] and
    [std::map<...> & get_loc()]: the overload is selected by the
    qualification [q] of the ledger it is called on; both return [loc_]
    itself. *)
Definition get_loc (q : Qual) : Ref (gmap string nat) :=
  mkRef q loc_ set_loc_.

Definition get_type (q : Qual) : Ref (gmap string StorageType) :=
  mkRef q type_ set_type_.

(** Reading through a reference. *)
Definition ref_read {A : Type} (r : Ref A) (h : History) : A := ref_get r h.

(** Assigning through a reference; a reference to const does not admit it
    ([None]: the program is rejected). *)
Definition ref_assign {A : Type} (r : Ref A) (a : A) (h : History)
    : option History :=
  match ref_qual r with
  | Mutable => Some (ref_set r a h)
  | Const => None
  end.

(** Modelled from the spec: the constructors [History()] and
    [History(bool store)] are defined outside src; the spec has a ledger
    "created empty (owning, size 0)" or "created as a non-owning alias".
    The initial value of [storage_] is left open as [p]. *)
Definition History_empty (store : bool) (p : Ptr) : History :=
  mkHistory 0 store p ∅ ∅.

Section Model.

(** A [double], and the indeterminate content of a cell that [new] has
    just handed out. *)
Variable scalar : Type.
Variable uninit : scalar.

(** *** Memory *)

Record Heap : Type := mkHeap {
  cells : gmap nat (list scalar);
  next_block : nat
}.

(** [*p] as an rvalue; [None] when [p] is outside every live array. *)
Definition load_cell (p : Ptr) (m : Heap) : option scalar :=
  buf ← cells m !! block p; buf !! offset p.

(** [*p = x]. *)
Definition store_cell (p : Ptr) (x : scalar) (m : Heap) : option Heap :=
  buf ← cells m !! block p;
  if decide (offset p < length buf)
  then Some (mkHeap (<[block p := <[offset p := x]> buf]> (cells m))
                    (next_block m))
  else None.

(** [new double[n]], already filled with [buf]. *)
Definition new_array (buf : list scalar) (m : Heap) : Ptr * Heap :=
  (mkPtr (next_block m) 0,
   mkHeap (<[next_block m := buf]> (cells m)) (S (next_block m))).

(** [delete [] p]. *)
Definition delete_array (p : Ptr) (m : Heap) : Heap :=
  mkHeap (delete (block p) (cells m)) (next_block m).

(** The doubles found from [p] to the end of its array. *)
Definition buffer_at (p : Ptr) (m : Heap) : list scalar :=
  match cells m !! block p with
  | Some buf => drop (offset p) buf
  | None => []
  end.

(** [n] consecutive loads from [p]. *)
Fixpoint load_cells (p : Ptr) (n : nat) (m : Heap) : option (list scalar) :=
  match n with
  | 0 => Some []
  | S n' =>
      x ← load_cell p m;
      xs ← load_cells (ptr_add p 1) n' m;
      Some (x :: xs)
  end.

(** Consecutive stores of the elements of [v] from [p]. *)
Fixpoint store_cells (p : Ptr) (v : list scalar) (m : Heap) : option Heap :=
  match v with
  | [] => Some m
  | x :: v' => m' ← store_cell p x m; store_cells (ptr_add p 1) v' m'
  end.

(** Modelled from the spec: the tensor classes ([math/tensors.h]) are not
    in src.  Spec 4.3: a typed handle built from a raw pointer has that
    pointer's region as its backing memory, reads no further than
    [footprint(T)] scalars from it and writes only that region.  A value of
    type [T] is the list of its [footprint(T)] components.  For
    [ScalarRef] this is plain C++: reading and assigning a [double &]. *)
Definition view_read (hd : Handle) (m : Heap) : option (list scalar) :=
  load_cells (handle_ptr hd) (handle_size hd) m.

(** Modelled from the spec: assignment to a tensor object is defined in
    [math/tensors.h], not in src.  Spec 4.2 and 4.3: mutations through a
    handle are visible in the buffer at once and touch only the
    [footprint(T)] scalars of its region.  [None] when the handle is a view
    of const memory or the value has the wrong number of components (both
    rejected before the program runs), or when the region is not inside a
    live array. *)
Definition view_write (hd : Handle) (v : list scalar) (m : Heap)
    : option Heap :=
  match handle_qual hd with
  | Mutable =>
      if decide (length v = handle_size hd)
      then store_cells (handle_ptr hd) v m
      else None
  | Const => None
  end.

(** *** Member functions as state transformers *)

(** The object a member function runs on, and the memory around it. *)
Record Machine : Type := mkMachine { self : History; heap : Heap }.

Definition M (A : Type) : Type := Machine -> Machine * Outcome A.

#[export] Instance M_ret : MRet M := fun A a s => (s, Ok a).

#[export] Instance M_bind : MBind M := fun A B k c s =>
  match c s with
  | (s', Ok a) => k a s'
  | (s', Throw e) => (s', Throw e)
  end.

Definition throw {A : Type} (e : Error) : M A := fun s => (s, Throw e).

(** [*this]. *)
Definition this : M History := fun s => (s, Ok (self s)).

Definition set_this (h : History) : M unit :=
  fun s => (mkMachine h (heap s), Ok tt).

Definition get_heap : M Heap := fun s => (s, Ok (heap s)).

Definition set_heap (m : Heap) : M unit :=
  fun s => (mkMachine (self s) m, Ok tt).

(** [std::map::at]. *)
Definition map_at {V : Type} (m : gmap string V) (name : string) : M V :=
  match m !! name with
  | Some v => mret v
  | None => throw OutOfRange
  end.

(** Modelled from the spec: the body of [History::error_if_exists_] is not
    in src.  Spec 4.2, declare: "Fails with a duplicate declaration error
    if name already present".  Presence is presence in [loc_], the map
    [get] reads the offset from. *)
Definition error_if_exists_ (name : string) : M unit :=
  h ← this;
  match loc_ h !! name with
  | Some _ => throw DuplicateDeclaration
  | None => mret tt
  end.

(** Modelled from the spec: the body of [History::error_if_not_exists_] is
    not in src.  Spec 4.2, get: "fails with unknown name if absent". *)
Definition error_if_not_exists_ (name : string) : M unit :=
  h ← this;
  match loc_ h !! name with
  | Some _ => mret tt
  | None => throw UnknownName
  end.

(** Modelled from the spec: the body of [History::error_if_wrong_type_] is
    not in src.  Spec 4.2, get: "fails with type mismatch if
    slot_type[name] != tag(T)". *)
Definition error_if_wrong_type_ (name : string) (type : StorageType)
    : M unit :=
  h ← this;
  if decide (type_ h !! name = Some type)
  then mret tt
  else throw TypeMismatch.

(** Modelled from the spec: the body of [History::size] is not in src.
    Spec 3: [size] is the total scalar-element count. *)
Definition size : M nat := h ← this; mret (size_ h).

(** Modelled from the spec: the body of [History::resize] is not in src.
    Spec 4.2: "grows owning storage by increment scalars, preserving
    existing contents at their existing offsets (a reallocate-and-copy
    ...); on a non-owning ledger this fails", with the error kind
    [UnsupportedResize] of spec 7.  The old array is released and a new one
    of [size_ + inc] doubles takes its place; the first [size_] doubles are
    those of the old array, the others are indeterminate. *)
Definition resize (inc : nat) : M unit :=
  h ← this;
  if store_ h then
    m ← get_heap;
    let old := buffer_at (storage_ h) m in
    let '(p, m') :=
      new_array (list.resize (size_ h + inc) uninit old)
                (delete_array (storage_ h) m) in
    set_heap m';;
    set_this (mkHistory (size_ h + inc) (store_ h) p (loc_ h) (type_ h))
  else throw UnsupportedResize.

(** [template<typename T> void add(std::string name)]. *)
Definition add (T : ValueType) (name : string) : M unit :=
  error_if_exists_ name;;
  (h ← this; set_this (set_loc_ (std_map_insert name (size_ h) (loc_ h)) h));;
  (h ← this;
   set_this (set_type_ (std_map_insert name (GetStorageType T) (type_ h)) h));;
  resize (GetStorageSize T).

(** The primary template
    [template<class T> typename item_return<T>::type get(std::string) const].
    Inside a const member function [storage_] is a [double * const]: the
    pointer is const, the doubles are not, so [&(storage_[...])] is a
    [double *] and the [T] built from it is a writable view. *)
Definition get_primary (T : ValueType) (name : string) : M Handle :=
  error_if_not_exists_ name;;
  error_if_wrong_type_ name (GetStorageType T);;
  h ← this;
  o ← map_at (loc_ h) name;
  mret (TensorView T Mutable (ptr_add (storage_ h) o)).

(** The specialisation [get<double>], whose return type
    [item_return<double>::type] is [double &]. *)
Definition get_double (name : string) : M Handle :=
  error_if_not_exists_ name;;
  error_if_wrong_type_ name (GetStorageType T_double);;
  h ← this;
  o ← map_at (loc_ h) name;
  mret (ScalarRef Mutable (ptr_add (storage_ h) o)).

(** [get<T>]: the explicit specialisation is taken for [double]. *)
Definition get (T : ValueType) (name : string) : M Handle :=
  match T with
  | T_double => get_double name
  | _ => get_primary T name
  end.

(** [h.get<T>(name)] where the expression [h] has qualification [q].  The
    class has one [get], const-qualified, and it is the function called for
    a const and for a non-const ledger alike. *)
Definition get_via (q : Qual) (T : ValueType) (name : string) : M Handle :=
  get T name.

(** Declaring a list of variables one after the other, as a
    [populate_history] does. *)
Fixpoint declare_all (decls : list (string * ValueType)) : M unit :=
  match decls with
  | [] => mret tt
  | (name, T) :: rest => add T name;; declare_all rest
  end.

(** *** Well-formed ledgers *)

(** Spec 3, invariant 1. *)
Definition slots_in_range (h : History) : Prop :=
  ∀ name o T,
    loc_ h !! name = Some o →
    type_ h !! name = Some (GetStorageType T) →
    o + GetStorageSize T ≤ size_ h.

(** The [size_] doubles from [storage_] on are inside a live array. *)
Definition storage_ok (s : Machine) : Prop :=
  ∀ i, i < size_ (self s) →
    is_Some (load_cell (ptr_add (storage_ (self s)) i) (heap s)).

(** Spec 3: [slot_type] has the same key set as [slot_offset]. *)
Definition same_keys (h : History) : Prop :=
  ∀ name, loc_ h !! name = None ↔ type_ h !! name = None.

Definition ledger_wf (s : Machine) : Prop :=
  same_keys (self s) ∧ slots_in_range (self s) ∧ storage_ok s.

(** The handle [get<T>] builds over [p]. *)
Definition handle_of (T : ValueType) (p : Ptr) : Handle :=
  match T with
  | T_double => ScalarRef Mutable p
  | _ => TensorView T Mutable p
  end.

End Model.

Arguments mkHeap {scalar} _ _.
Arguments mkMachine {scalar} _ _.
Arguments self {scalar} _.
Arguments heap {scalar} _.
Arguments cells {scalar} _.
Arguments next_block {scalar} _.
Arguments load_cell {scalar} _ _.
Arguments store_cell {scalar} _ _ _.
Arguments load_cells {scalar} _ _ _.
Arguments store_cells {scalar} _ _ _.
Arguments view_read {scalar} _ _.
Arguments view_write {scalar} _ _ _.
Arguments throw {scalar A} _ _.
Arguments this {scalar} _.
Arguments set_this {scalar} _ _.
Arguments get_heap {scalar} _.
Arguments set_heap {scalar} _ _.
Arguments map_at {scalar V} _ _ _.
Arguments error_if_exists_ {scalar} _ _.
Arguments error_if_not_exists_ {scalar} _ _.
Arguments error_if_wrong_type_ {scalar} _ _ _.
Arguments size {scalar} _.
Arguments resize {scalar} _ _ _.
Arguments add {scalar} _ _ _ _.
Arguments get_primary {scalar} _ _ _.
Arguments get_double {scalar} _ _.
Arguments get {scalar} _ _ _.
Arguments get_via {scalar} _ _ _ _.
Arguments declare_all {scalar} _ _ _.
Arguments storage_ok {scalar} _.
Arguments ledger_wf {scalar} _.
Arguments buffer_at {scalar} _ _.
Arguments new_array {scalar} _ _.
Arguments delete_array {scalar} _ _.

(** ** A worked ledger

    Doubles are taken as their 64-bit patterns, read as integers.  The
    ledger of the end-to-end scenario of the spec: a symmetric tensor
    [stress] and a scalar [hardening], declared in that order. *)

Definition heap0 : Heap Z := mkHeap ∅ 1.

Definition owning0 : Machine Z := mkMachine (History_empty true nullptr) heap0.

Definition borrowed0 : Machine Z :=
  mkMachine (History_empty false nullptr) heap0.

Definition example_decls : list (string * ValueType) :=
  [("stress"%string, T_Symmetric); ("hardening"%string, T_double)].

Definition example_machine : Machine Z :=
  (declare_all 0%Z example_decls owning0).1.

(** ** Raw access to the buffer (history.h, lines 58-61) *)

Section RawAccess.

Variable scalar : Type.

(** [const double * rawptr() const] and [double * rawptr()]: both return
    [storage_]; the pointer is to const when the ledger it is called on is
    const. *)
Definition rawptr (q : Qual) : M scalar (Qual * Ptr) :=
  h ← this; mret (q, storage_ h).

(** [p[k]] as an rvalue. *)
Definition raw_read (qp : Qual * Ptr) (k : nat) (m : Heap scalar)
    : option scalar :=
  load_cell (ptr_add qp.2 k) m.

(** [p[k] = x]; a pointer to const does not admit it ([None]: the program
    is rejected), and [None] as well outside every live array. *)
Definition raw_write (qp : Qual * Ptr) (k : nat) (x : scalar)
    (m : Heap scalar) : option (Heap scalar) :=
  match qp.1 with
  | Mutable => store_cell (ptr_add qp.2 k) x m
  | Const => None
  end.

End RawAccess.

Arguments rawptr {scalar} _ _.
Arguments raw_read {scalar} _ _ _.
Arguments raw_write {scalar} _ _ _ _.

(** ** Derivative types (internalvariable.h, lines 8-41) *)

(** The types [dtype] yields: a type of the registry, or [SymSymR4], which
    the registry does not know. *)
Inductive DerivType : Set :=
  | D_value (T : ValueType)
  | D_SymSymR4.

(** [template<class A, class B> struct dtype]: declared for all types,
    specialised for the four combinations of [double] and [Symmetric];
    [None] where there is no specialisation, hence no [type] member. *)
Definition dtype (A B : ValueType) : option DerivType :=
  match A, B with
  | T_double, T_double => Some (D_value T_double)
  | T_double, T_Symmetric => Some (D_value T_Symmetric)
  | T_Symmetric, T_double => Some (D_value T_Symmetric)
  | T_Symmetric, T_Symmetric => Some D_SymSymR4
  | _, _ => None
  end.

(** The typedefs [VV], [Vs] and [VS] of [InternalVariable<V>]. *)
Definition VV (V : ValueType) : option DerivType := dtype V V.
Definition Vs (V : ValueType) : option DerivType := dtype V T_double.
Definition VS (V : ValueType) : option DerivType := dtype V T_Symmetric.

(** The registry type a derivative type is, if any: the type [add] and
    [get] could be instantiated at to keep such a derivative in a
    [History]. *)
Definition storable (D : DerivType) : option ValueType :=
  match D with
  | D_value T => Some T
  | D_SymSymR4 => None
  end.

(** * Properties *)

Section Properties.

Context {scalar : Type} (uninit : scalar).

Implicit Types (s : Machine scalar) (m : Heap scalar) (h : History).
Implicit Types (T : ValueType) (name : string) (p : Ptr).

Ltac unfold_M :=
  unfold add, resize, get, get_via, get_primary, get_double, size,
    error_if_exists_, error_if_not_exists_, error_if_wrong_type_, map_at,
    this, set_this, get_heap, set_heap, throw, mbind, M_bind, mret, M_ret;
  simpl.

(** *** What [add] does, case by case *)

Lemma std_map_insert_fresh {V : Type} (k : string) (v : V)
    (mp : gmap string V) :
  mp !! k = None → std_map_insert k v mp = <[k := v]> mp.
Proof. intros Hk. unfold std_map_insert. by rewrite Hk. Qed.

Lemma std_map_insert_present {V : Type} (k : string) (v : V)
    (mp : gmap string V) :
  is_Some (mp !! k) → std_map_insert k v mp = mp.
Proof. intros [w Hk]. unfold std_map_insert. by rewrite Hk. Qed.

Lemma add_duplicate T name s :
  is_Some (loc_ (self s) !! name) →
  add uninit T name s = (s, Throw DuplicateDeclaration).
Proof.
  intros [o Ho]. unfold_M. by rewrite Ho.
Qed.

Lemma add_owning T name s :
  loc_ (self s) !! name = None →
  store_ (self s) = true →
  add uninit T name s =
    (mkMachine
       (mkHistory (size_ (self s) + GetStorageSize T) true
          (mkPtr (next_block (heap s)) 0)
          (<[name := size_ (self s)]> (loc_ (self s)))
          (std_map_insert name (GetStorageType T) (type_ (self s))))
       (new_array
          (list.resize (size_ (self s) + GetStorageSize T) uninit
             (buffer_at (storage_ (self s)) (heap s)))
          (delete_array (storage_ (self s)) (heap s))).2,
     Ok tt).
Proof.
  intros Hn Hs. unfold_M. rewrite Hn. simpl.
  unfold std_map_insert at 1. rewrite Hn, Hs. reflexivity.
Qed.

Lemma add_borrowed T name s :
  loc_ (self s) !! name = None →
  store_ (self s) = false →
  add uninit T name s =
    (mkMachine
       (mkHistory (size_ (self s)) false (storage_ (self s))
          (<[name := size_ (self s)]> (loc_ (self s)))
          (std_map_insert name (GetStorageType T) (type_ (self s))))
       (heap s),
     Throw UnsupportedResize).
Proof.
  intros Hn Hs. unfold_M. rewrite Hn. simpl. rewrite Hs.
  unfold set_type_, set_loc_. simpl.
  rewrite (std_map_insert_fresh _ _ _ Hn). by rewrite Hs.
Qed.


(** *** Memory: a store is seen by the next load and by nothing else *)

Lemma ptr_add_0 p : ptr_add p 0 = p.
Proof. destruct p as [b o]. unfold ptr_add. simpl. f_equal. lia. Qed.

Lemma ptr_add_add p a b : ptr_add (ptr_add p a) b = ptr_add p (a + b).
Proof. unfold ptr_add. simpl. f_equal. lia. Qed.

Lemma load_store_eq p (x : scalar) m m' :
  store_cell p x m = Some m' → load_cell p m' = Some x.
Proof.
  unfold store_cell, load_cell.
  destruct (cells m !! block p) as [buf|] eqn:E; simpl; [|done].
  case_decide; [|done]. intros [= <-]. simpl.
  rewrite lookup_insert_eq. simpl. by apply list_lookup_insert_eq.
Qed.

Lemma load_store_ne p p' (x : scalar) m m' :
  store_cell p x m = Some m' → p' ≠ p → load_cell p' m' = load_cell p' m.
Proof.
  unfold store_cell, load_cell.
  destruct (cells m !! block p) as [buf|] eqn:E; simpl; [|done].
  case_decide; [|done]. intros [= <-] Hne. simpl.
  destruct (decide (block p' = block p)) as [Hb|Hb].
  - rewrite Hb, lookup_insert_eq, E. simpl.
    apply list_lookup_insert_ne. intros Ho. apply Hne.
    destruct p, p'; simpl in *; congruence.
  - by rewrite lookup_insert_ne.
Qed.

Lemma store_cell_is_Some p (x : scalar) m :
  is_Some (load_cell p m) → is_Some (store_cell p x m).
Proof.
  unfold store_cell, load_cell.
  destruct (cells m !! block p) as [buf|] eqn:E; simpl.
  - intros [y Hy]. apply lookup_lt_Some in Hy.
    case_decide; [eauto | lia].
  - by intros [y Hy].
Qed.

Lemma load_store_is_Some p p' (x : scalar) m m' :
  store_cell p x m = Some m' → is_Some (load_cell p' m) → is_Some (load_cell p' m').
Proof.
  intros Hst Hl. destruct (decide (p' = p)) as [->|Hne].
  - rewrite (load_store_eq _ _ _ _ Hst). eauto.
  - by rewrite (load_store_ne _ _ _ _ _ Hst Hne).
Qed.

Lemma store_cells_load_outside (v : list scalar) : ∀ p m m' p',
  store_cells p v m = Some m' →
  outside p (length v) p' →
  load_cell p' m' = load_cell p' m.
Proof.
  induction v as [|x v IH]; intros p m m' p' Hst Hout; simpl in Hst.
  - by injection Hst as <-.
  - destruct (store_cell p x m) as [m1|] eqn:E1; simpl in Hst; [|done].
    rewrite (IH _ _ _ p' Hst).
    + apply (load_store_ne _ _ _ _ _ E1). intros ->.
      destruct Hout as [?|[?|?]]; simpl in *; [done|lia|lia].
    + destruct Hout as [?|[?|?]]; unfold outside; simpl in *;
        [by left | right; left; lia | right; right; lia].
Qed.

Lemma store_cells_load_cells (v : list scalar) : ∀ p m m',
  store_cells p v m = Some m' → load_cells p (length v) m' = Some v.
Proof.
  induction v as [|x v IH]; intros p m m' Hst; simpl in *; [done|].
  destruct (store_cell p x m) as [m1|] eqn:E1; simpl in Hst; [|done].
  rewrite (store_cells_load_outside _ _ _ _ p Hst).
  - rewrite (load_store_eq _ _ _ _ E1). simpl.
    by rewrite (IH _ _ _ Hst).
  - right; left. simpl. lia.
Qed.

Lemma store_cells_is_Some (v : list scalar) : ∀ p m,
  (∀ i, i < length v → is_Some (load_cell (ptr_add p i) m)) →
  is_Some (store_cells p v m).
Proof.
  induction v as [|x v IH]; intros p m Hall; simpl; [eauto|].
  destruct (store_cell_is_Some p x m) as [m1 E1].
  { rewrite <- (ptr_add_0 p). apply Hall. simpl. lia. }
  rewrite E1. simpl. apply IH. intros i Hi.
  apply (load_store_is_Some _ _ _ _ _ E1).
  rewrite ptr_add_add. apply Hall. simpl. lia.
Qed.

Lemma store_cells_keeps_cells (v : list scalar) : ∀ p m m' p',
  store_cells p v m = Some m' →
  is_Some (load_cell p' m) → is_Some (load_cell p' m').
Proof.
  induction v as [|x v IH]; intros p m m' p' Hst Hl; simpl in Hst.
  - by injection Hst as <-.
  - destruct (store_cell p x m) as [m1|] eqn:E1; simpl in Hst; [|done].
    apply (IH _ _ _ _ Hst). by apply (load_store_is_Some _ _ _ _ _ E1).
Qed.

(** What is written through a handle is what is read through it. *)
Lemma view_write_read (hd : Handle) (v : list scalar) m m' :
  view_write hd v m = Some m' → view_read hd m' = Some v.
Proof.
  unfold view_write, view_read.
  destruct (handle_qual hd); [done|]. case_decide as Hlen; [|done].
  intros Hst. rewrite <- Hlen. by apply (store_cells_load_cells _ _ m).
Qed.

(** A write through a handle leaves every cell outside its region as it
    was. *)
Lemma view_write_outside (hd : Handle) (v : list scalar) m m' p' :
  view_write hd v m = Some m' →
  outside (handle_ptr hd) (handle_size hd) p' →
  load_cell p' m' = load_cell p' m.
Proof.
  unfold view_write.
  destruct (handle_qual hd); [done|]. case_decide as Hlen; [|done].
  intros Hst Hout. rewrite <- Hlen in Hout.
  by apply (store_cells_load_outside _ _ _ _ _ Hst).
Qed.

(** *** What [get] does, case by case *)

Lemma get_ok T name s o :
  loc_ (self s) !! name = Some o →
  type_ (self s) !! name = Some (GetStorageType T) →
  get T name s = (s, Ok (handle_of T (ptr_add (storage_ (self s)) o))).
Proof.
  intros Ho Ht.
  destruct T; unfold_M; rewrite Ho; simpl;
    (rewrite decide_True by done); simpl; by rewrite Ho.
Qed.

Lemma get_unknown T name s :
  loc_ (self s) !! name = None → get T name s = (s, Throw UnknownName).
Proof.
  intros Ho. destruct T; unfold_M; by rewrite Ho.
Qed.

Lemma get_mismatch T name s :
  is_Some (loc_ (self s) !! name) →
  type_ (self s) !! name ≠ Some (GetStorageType T) →
  get T name s = (s, Throw TypeMismatch).
Proof.
  intros [o Ho] Ht.
  destruct T; unfold_M; rewrite Ho; simpl; by rewrite decide_False.
Qed.

(** [get] never changes the machine. *)
Lemma get_pure T name s :
  (get T name s).1 = s.
Proof.
  destruct (loc_ (self s) !! name) as [o|] eqn:Ho.
  - destruct (decide (type_ (self s) !! name = Some (GetStorageType T)))
      as [Ht|Ht].
    + by rewrite (get_ok _ _ _ _ Ho Ht).
    + by rewrite get_mismatch.
  - by rewrite get_unknown.
Qed.

(** A successful [get] found the name in both maps, with the tag of [T]. *)
Lemma get_ok_inv T name s s' hd :
  get T name s = (s', Ok hd) →
  s' = s ∧
  ∃ o, loc_ (self s) !! name = Some o ∧
       type_ (self s) !! name = Some (GetStorageType T) ∧
       hd = handle_of T (ptr_add (storage_ (self s)) o).
Proof.
  destruct (loc_ (self s) !! name) as [o|] eqn:Ho.
  - destruct (decide (type_ (self s) !! name = Some (GetStorageType T)))
      as [Ht|Ht].
    + rewrite (get_ok _ _ _ _ Ho Ht). intros [= <- <-]. eauto.
    + by rewrite get_mismatch.
  - by rewrite get_unknown.
Qed.

Lemma handle_of_ptr T p : handle_ptr (handle_of T p) = p.
Proof. by destruct T. Qed.

Lemma handle_of_size T p : handle_size (handle_of T p) = GetStorageSize T.
Proof. by destruct T. Qed.

Lemma handle_of_qual T p : handle_qual (handle_of T p) = Mutable.
Proof. by destruct T. Qed.

Lemma GetStorageType_inj T1 T2 :
  GetStorageType T1 = GetStorageType T2 → T1 = T2.
Proof. by destruct T1, T2. Qed.

(** *** A successful [add], and the invariants it keeps *)

Lemma add_ok_inv T name s s' :
  add uninit T name s = (s', Ok tt) →
  loc_ (self s) !! name = None ∧
  store_ (self s) = true ∧
  loc_ (self s') = <[name := size_ (self s)]> (loc_ (self s)) ∧
  type_ (self s') = std_map_insert name (GetStorageType T) (type_ (self s)) ∧
  size_ (self s') = size_ (self s) + GetStorageSize T ∧
  store_ (self s') = true ∧
  storage_ok s'.
Proof.
  destruct (loc_ (self s) !! name) as [o|] eqn:Ho.
  { by rewrite add_duplicate. }
  destruct (store_ (self s)) eqn:Hs.
  2: { by rewrite add_borrowed. }
  rewrite add_owning by done. intros [= <-]. simpl.
  repeat split; try done.
  intros i Hi. unfold load_cell, ptr_add. simpl in *.
  rewrite lookup_insert_eq. simpl.
  apply lookup_lt_is_Some. rewrite length_resize. lia.
Qed.

(** A declaration moves the buffer but keeps what the [size_] doubles
    held. *)
Lemma add_preserves_contents T name s s' i :
  storage_ok s →
  add uninit T name s = (s', Ok tt) →
  i < size_ (self s) →
  load_cell (ptr_add (storage_ (self s')) i) (heap s')
    = load_cell (ptr_add (storage_ (self s)) i) (heap s).
Proof.
  intros Hst Hadd Hi.
  destruct (loc_ (self s) !! name) as [o|] eqn:Ho.
  { by rewrite add_duplicate in Hadd. }
  destruct (store_ (self s)) eqn:Hs.
  2: { by rewrite add_borrowed in Hadd. }
  rewrite add_owning in Hadd by done. injection Hadd as <-.
  specialize (Hst i Hi). unfold load_cell, ptr_add in *. simpl in *.
  rewrite lookup_insert_eq. simpl. unfold buffer_at.
  destruct (cells (heap s) !! block (storage_ (self s))) as [buf|];
    simpl in *; [|by destruct Hst].
  destruct Hst as [x Hx]. pose proof (lookup_lt_Some _ _ _ Hx) as Hlt.
  rewrite lookup_resize; [by rewrite lookup_drop| lia |].
  rewrite length_drop. lia.
Qed.

Lemma empty_wf store p m :
  ledger_wf (mkMachine (History_empty store p) m).
Proof.
  split; [|split].
  - intros name. simpl. by rewrite !lookup_empty.
  - intros name o T. simpl. by rewrite lookup_empty.
  - intros i. simpl. lia.
Qed.

Lemma add_wf T name s s' :
  ledger_wf s → add uninit T name s = (s', Ok tt) → ledger_wf s'.
Proof.
  intros (Hk & Hr & _) Hadd.
  apply add_ok_inv in Hadd as (Hn & _ & Hl & Ht & Hsz & _ & Hst).
  assert (type_ (self s) !! name = None) as Hn' by by apply Hk.
  rewrite (std_map_insert_fresh _ _ _ Hn') in Ht.
  split; [|split]; [| |done].
  - intros name'. rewrite Hl, Ht.
    destruct (decide (name = name')) as [->|Hne].
    + by rewrite !lookup_insert_eq.
    + rewrite !lookup_insert_ne by done. apply Hk.
  - intros name' o T'. rewrite Hl, Ht, Hsz.
    destruct (decide (name = name')) as [->|Hne].
    + rewrite !lookup_insert_eq. intros [= <-] [= HT].
      apply GetStorageType_inj in HT as ->. lia.
    + rewrite !lookup_insert_ne by done. intros Ho HT'.
      specialize (Hr _ _ _ Ho HT'). lia.
Qed.

Lemma declare_all_cons name T rest s :
  declare_all uninit ((name, T) :: rest) s =
    match add uninit T name s with
    | (s1, Ok _) => declare_all uninit rest s1
    | (s1, Throw e) => (s1, Throw e)
    end.
Proof. reflexivity. Qed.

Lemma declare_all_wf decls : ∀ s s',
  ledger_wf s → declare_all uninit decls s = (s', Ok tt) → ledger_wf s'.
Proof.
  induction decls as [|[name T] rest IH]; intros s s' Hwf Hrun.
  - by injection Hrun as <-.
  - rewrite declare_all_cons in Hrun.
    destruct (add uninit T name s) as [s1 [[]|e]] eqn:Hadd; [|done].
    eapply IH; [|done]. by eapply add_wf.
Qed.

(** A write through a handle changes no bookkeeping and frees no cell. *)
Lemma view_write_wf (hd : Handle) (v : list scalar) s m' :
  ledger_wf s → view_write hd v (heap s) = Some m' →
  ledger_wf (mkMachine (self s) m').
Proof.
  intros (Hk & Hr & Hst) Hw. split; [|split]; [done|done|].
  intros i Hi. simpl in *. specialize (Hst i Hi).
  unfold view_write in Hw. destruct (handle_qual hd); [done|].
  case_decide; [|done]. by eapply store_cells_keeps_cells.
Qed.

(** The slot of a declared name lies inside the buffer. *)
Lemma slot_cells_live T name s o :
  ledger_wf s →
  loc_ (self s) !! name = Some o →
  type_ (self s) !! name = Some (GetStorageType T) →
  ∀ i, i < GetStorageSize T →
    is_Some (load_cell (ptr_add (ptr_add (storage_ (self s)) o) i) (heap s)).
Proof.
  intros (_ & Hr & Hst) Ho Ht i Hi.
  rewrite ptr_add_add. apply Hst. specialize (Hr _ _ _ Ho Ht). lia.
Qed.

(** *** Running totals of footprints *)

Lemma footprints_cons name T (l : list (string * ValueType)) :
  footprints ((name, T) :: l) = GetStorageSize T + footprints l.
Proof. reflexivity. Qed.

Lemma footprints_app (a b : list (string * ValueType)) :
  footprints (a ++ b) = footprints a + footprints b.
Proof.
  induction a as [|[n T] a IH]; [done|].
  simpl. rewrite !footprints_cons, IH. lia.
Qed.

Lemma footprints_take_S (l : list (string * ValueType)) i name T :
  l !! i = Some (name, T) →
  footprints (take (S i) l) = footprints (take i l) + GetStorageSize T.
Proof.
  intros Hi. rewrite (take_S_r _ _ _ Hi), footprints_app.
    unfold footprints at 2. simpl. lia.
Qed.

Lemma footprints_take_mono (l : list (string * ValueType)) : ∀ i j,
  i ≤ j → footprints (take i l) ≤ footprints (take j l).
Proof.
  induction l as [|[n T] l IH]; intros i j Hij.
  - by rewrite !take_nil.
  - destruct i as [|i], j as [|j]; simpl; try lia.
    + unfold footprints at 1. simpl. lia.
    + rewrite !footprints_cons. specialize (IH i j). lia.
Qed.

Lemma footprints_take_le (l : list (string * ValueType)) i :
  footprints (take i l) ≤ footprints l.
Proof.
  rewrite <- (take_drop i l) at 2. rewrite footprints_app. lia.
Qed.

Lemma footprints_slot_before (l : list (string * ValueType)) i j name T :
  i < j → l !! i = Some (name, T) →
  footprints (take i l) + GetStorageSize T ≤ footprints (take j l).
Proof.
  intros Hij Hi. rewrite <- (footprints_take_S _ _ _ _ Hi).
  apply footprints_take_mono. lia.
Qed.

Lemma footprints_slot_end (l : list (string * ValueType)) i name T :
  l !! i = Some (name, T) →
  footprints (take i l) + GetStorageSize T ≤ footprints l.
Proof.
  intros Hi. rewrite <- (footprints_take_S _ _ _ _ Hi).
  apply footprints_take_le.
Qed.

Lemma footprints_cover (l : list (string * ValueType)) : ∀ k,
  k < footprints l →
  ∃ i name T, l !! i = Some (name, T) ∧
    footprints (take i l) ≤ k < footprints (take i l) + GetStorageSize T.
Proof.
  induction l as [|[n T] l IH]; intros k Hk.
  - unfold footprints in Hk. simpl in Hk. lia.
  - rewrite footprints_cons in Hk.
    destruct (decide (k < GetStorageSize T)) as [Hlt|Hge].
    + exists 0, n, T. split; [done|].
      unfold footprints at 1 2. simpl. lia.
    + destruct (IH (k - GetStorageSize T)) as (i & n' & T' & Hi & Hb);
        [lia|].
      exists (S i), n', T'. split; [done|].
      simpl. rewrite footprints_cons. lia.
Qed.

(** *** A sequence of declarations *)

(** The offsets after a successful run are the running totals, counted
    from the size the ledger had before. *)
Lemma declare_all_offsets decls : ∀ s s',
  declare_all uninit decls s = (s', Ok tt) →
  same_keys (self s) →
  size_ (self s') = size_ (self s) + footprints decls ∧
  NoDup decls.*1 ∧
  (∀ name, name ∈ decls.*1 → loc_ (self s) !! name = None) ∧
  (∀ i name T, decls !! i = Some (name, T) →
     loc_ (self s') !! name = Some (size_ (self s) + footprints (take i decls)) ∧
     type_ (self s') !! name = Some (GetStorageType T)) ∧
  (∀ name, name ∉ decls.*1 →
     loc_ (self s') !! name = loc_ (self s) !! name ∧
     type_ (self s') !! name = type_ (self s) !! name).
Proof.
  induction decls as [|[n T] rest IH]; intros s s' Hrun Hk.
  - injection Hrun as <-. unfold footprints. simpl.
    split; [lia|]. split; [constructor|]. split; [|split]; [|done|done].
    by intros name Hin%elem_of_nil.
  - rewrite declare_all_cons in Hrun.
    destruct (add uninit T n s) as [s1 [[]|e]] eqn:Hadd; [|done].
    apply add_ok_inv in Hadd as (Hn & _ & Hl & Ht & Hsz & _ & _).
    assert (type_ (self s) !! n = None) as Hn' by by apply Hk.
    rewrite (std_map_insert_fresh _ _ _ Hn') in Ht.
    assert (same_keys (self s1)) as Hk1.
    { intros name'. rewrite Hl, Ht.
      destruct (decide (n = name')) as [->|Hne].
      - by rewrite !lookup_insert_eq.
      - rewrite !lookup_insert_ne by done. apply Hk. }
    destruct (IH _ _ Hrun Hk1) as (Hsz' & Hnd & Hfresh & Hoff & Hrest).
    assert (n ∉ rest.*1) as Hnin.
    { intros Hin. specialize (Hfresh _ Hin).
      by rewrite Hl, lookup_insert_eq in Hfresh. }
    rewrite footprints_cons. simpl.
    split; [lia|]. split; [by constructor|]. split; [|split].
    + intros name [->|Hin]%elem_of_cons; [done|].
      specialize (Hfresh _ Hin). rewrite Hl in Hfresh.
      destruct (decide (n = name)) as [->|Hne]; [done|].
      by rewrite lookup_insert_ne in Hfresh.
    + intros [|i] name T' Hi; simpl in Hi.
      * injection Hi as -> ->. destruct (Hrest _ Hnin) as [-> ->].
        rewrite Hl, Ht, !lookup_insert_eq. unfold footprints. simpl.
        split; [f_equal; lia|done].
      * destruct (Hoff _ _ _ Hi) as [-> ->]. simpl.
        rewrite footprints_cons. split; [f_equal; lia|done].
    + intros name [Hne Hnin']%not_elem_of_cons.
      destruct (Hrest _ Hnin') as [-> ->].
      by rewrite Hl, Ht, !lookup_insert_ne.
Qed.

(** On an owning ledger, fresh and distinct names are all accepted. *)
Lemma declare_all_succeeds decls : ∀ s,
  store_ (self s) = true →
  NoDup decls.*1 →
  (∀ name, name ∈ decls.*1 → loc_ (self s) !! name = None) →
  ∃ s', declare_all uninit decls s = (s', Ok tt).
Proof.
  induction decls as [|[n T] rest IH]; intros s Hs Hnd Hfresh.
  - by exists s.
  - rewrite declare_all_cons.
    assert (loc_ (self s) !! n = None) as Hn.
    { apply Hfresh. simpl. left. }
    rewrite (add_owning _ _ _ Hn Hs).
    simpl in Hnd. apply NoDup_cons in Hnd as [Hnin Hnd].
    apply IH; simpl; [done|done|].
    intros name Hin. rewrite lookup_insert_ne.
    + apply Hfresh. simpl. by right.
    + intros ->. done.
Qed.

(** A value of the right length can be written through the handle of a
    declared slot. *)
Lemma view_write_slot T name (v : list scalar) s o :
  ledger_wf s →
  loc_ (self s) !! name = Some o →
  type_ (self s) !! name = Some (GetStorageType T) →
  length v = GetStorageSize T →
  ∃ m', view_write (handle_of T (ptr_add (storage_ (self s)) o)) v (heap s)
          = Some m'.
Proof.
  intros Hwf Ho Ht Hlen. unfold view_write.
  rewrite handle_of_qual, handle_of_size, handle_of_ptr.
  rewrite decide_True by done.
  apply store_cells_is_Some. intros i Hi.
  eapply slot_cells_live; [done|done|done|lia].
Qed.

Lemma declared_has_offset name s t :
  same_keys (self s) → type_ (self s) !! name = Some t →
  ∃ o, loc_ (self s) !! name = Some o.
Proof.
  intros Hk Ht. destruct (loc_ (self s) !! name) as [o|] eqn:Ho; [eauto|].
  apply Hk in Ho. congruence.
Qed.

(** ** The claims *)


(** C10: the enumeration has a seventh tag, [TYPE_ARRAY], which no value
    type maps to; a slot made by a declaration never carries it, and a
    [get] on a slot that carries it never succeeds. *)
Theorem TYPE_ARRAY_never_declared_never_matched :
  (length storage_types = 7 ∧ (∀ t, t ∈ storage_types) ∧
   StorageType_value TYPE_ARRAY = 2%Z) ∧
  (∀ T, GetStorageType T ≠ TYPE_ARRAY) ∧
  (∀ T name s s',
     type_ (self s) !! name = None →
     add uninit T name s = (s', Ok tt) →
     type_ (self s') !! name = Some (GetStorageType T)) ∧
  (∀ store p m decls s' name,
     declare_all uninit decls (mkMachine (History_empty store p) m)
       = (s', Ok tt) →
     type_ (self s') !! name ≠ Some TYPE_ARRAY) ∧
  (∀ T name s,
     type_ (self s) !! name = Some TYPE_ARRAY →
     ∃ e, get T name s = (s, Throw e) ∧
          (is_Some (loc_ (self s) !! name) → e = TypeMismatch)).
Proof.
  split; [|split; [|split; [|split]]].
  - split; [reflexivity|]. split; [|reflexivity].
    intros t. unfold storage_types. destruct t; set_solver.
  - by intros [].
  - intros T name s s' Hn Hadd.
    apply add_ok_inv in Hadd as (_ & _ & _ & -> & _).
    by rewrite (std_map_insert_fresh _ _ _ Hn), lookup_insert_eq.
  - intros store p m decls s' name Hrun Harr.
    destruct (declare_all_offsets _ _ _ Hrun) as (_ & _ & _ & Hoff & Hrest).
    { intros n. simpl. by rewrite !lookup_empty. }
    destruct (decide (name ∈ decls.*1)) as [Hin|Hnin].
    + apply list_elem_of_fmap in Hin as ([n T] & -> & Hin).
      apply list_elem_of_lookup in Hin as [i Hi].
      destruct (Hoff _ _ _ Hi) as [_ Ht]. simpl in Harr.
      rewrite Ht in Harr. by destruct T.
    + destruct (Hrest _ Hnin) as [_ Ht]. simpl in Ht.
      by rewrite Ht, lookup_empty in Harr.
  - intros T name s Harr.
    destruct (loc_ (self s) !! name) as [o|] eqn:Ho.
    + exists TypeMismatch. split; [|done].
      apply get_mismatch; [by rewrite Ho|].
      rewrite Harr. by destruct T.
    + exists UnknownName. split; [by apply get_unknown|].
      by intros [? ?].
Qed.

(** C2 (amended): on a ledger where [name] is not present, [add<T>(name)]
    records the previous size as the offset of [name] and the tag of [T] as
    its type.  When the ledger owns its storage the call returns and has
    grown the size by exactly the footprint of [T]; when it does not, the
    call throws [UnsupportedResize] and the size is as before.  So, from an
    empty ledger, the offset of a slot is the sum of the footprints of the
    slots declared before it. *)
Theorem add_records_offset_tag_and_grows :
  (∀ T name s,
     loc_ (self s) !! name = None →
     type_ (self s) !! name = None →
     ∃ s' r,
       add uninit T name s = (s', r) ∧
       loc_ (self s') = <[name := size_ (self s)]> (loc_ (self s)) ∧
       type_ (self s') = <[name := GetStorageType T]> (type_ (self s)) ∧
       (r = Ok tt → size_ (self s') = size_ (self s) + GetStorageSize T) ∧
       (store_ (self s) = true →
          r = Ok tt ∧ size_ (self s') = size_ (self s) + GetStorageSize T) ∧
       (store_ (self s) = false →
          r = Throw UnsupportedResize ∧ size_ (self s') = size_ (self s))) ∧
  (∀ store p m decls s' i name T,
     declare_all uninit decls (mkMachine (History_empty store p) m)
       = (s', Ok tt) →
     decls !! i = Some (name, T) →
     loc_ (self s') !! name = Some (footprints (take i decls)) ∧
     type_ (self s') !! name = Some (GetStorageType T)).
Proof.
  split.
  - intros T name s Hl Ht. destruct (store_ (self s)) eqn:Hs.
    + eexists _, _. split; [by apply add_owning|]. simpl.
      by rewrite (std_map_insert_fresh _ _ _ Ht).
    + eexists _, _. split; [by apply add_borrowed|]. simpl.
      by rewrite (std_map_insert_fresh _ _ _ Ht).
  - intros store p m decls s' i name T Hrun Hi.
    destruct (declare_all_offsets _ _ _ Hrun) as (_ & _ & _ & Hoff & _).
    { intros n. simpl. by rewrite !lookup_empty. }
    exact (Hoff _ _ _ Hi).
Qed.

(** C1: after any sequence of successful declarations into an empty
    ledger, the ranges [offset_i, offset_i + footprint(T_i)) of two
    different slots are disjoint, the ranges together are exactly the
    indices below [size()], whose value is the sum of the footprints, and
    every name present has a tag of one of the six types and its slot ends
    at or before the size.  The names present are the declared ones. *)
Theorem declared_slots_tile_the_buffer store p m decls s' :
  declare_all uninit decls (mkMachine (History_empty store p) m)
    = (s', Ok tt) →
  (∀ i j ni Ti nj Tj oi oj,
     i ≠ j →
     decls !! i = Some (ni, Ti) → decls !! j = Some (nj, Tj) →
     loc_ (self s') !! ni = Some oi → loc_ (self s') !! nj = Some oj →
     oi + GetStorageSize Ti ≤ oj ∨ oj + GetStorageSize Tj ≤ oi) ∧
  (∀ k, k < size_ (self s') ↔
     ∃ i name T o, decls !! i = Some (name, T) ∧
       loc_ (self s') !! name = Some o ∧ o ≤ k < o + GetStorageSize T) ∧
  size s' = (s', Ok (footprints decls)) ∧
  (∀ name o,
     loc_ (self s') !! name = Some o →
     ∃ T, type_ (self s') !! name = Some (GetStorageType T) ∧
          o + GetStorageSize T ≤ size_ (self s')) ∧
  (∀ name, is_Some (loc_ (self s') !! name) ↔ name ∈ decls.*1).
Proof.
  intros Hrun.
  destruct (declare_all_offsets _ _ _ Hrun)
    as (Hsz & Hnd & _ & Hoff & Hrest).
  { intros n. simpl. by rewrite !lookup_empty. }
  simpl in Hsz, Hoff, Hrest.
  split; [|split; [|split; [|split]]].
  - intros i j ni Ti nj Tj oi oj Hij Hi Hj Hoi Hoj.
    destruct (Hoff _ _ _ Hi) as [Hoi' _].
    destruct (Hoff _ _ _ Hj) as [Hoj' _].
    rewrite Hoi' in Hoi. rewrite Hoj' in Hoj.
    injection Hoi as <-. injection Hoj as <-.
    destruct (decide (i < j)) as [Hlt|Hge].
    + left. by eapply footprints_slot_before.
    + right. eapply footprints_slot_before; [|done]. lia.
  - intros k. rewrite Hsz. simpl. split.
    + intros Hk. destruct (footprints_cover decls k Hk)
        as (i & name & T & Hi & Hb).
      exists i, name, T, (footprints (take i decls)).
      split; [done|]. split; [|done]. by destruct (Hoff _ _ _ Hi) as [-> _].
    + intros (i & name & T & o & Hi & Ho & Hb).
      destruct (Hoff _ _ _ Hi) as [Ho' _]. rewrite Ho' in Ho.
      injection Ho as <-.
      pose proof (footprints_slot_end _ _ _ _ Hi). lia.
  - unfold size, mbind, M_bind, this, mret, M_ret. simpl. by rewrite Hsz.
  - intros name o Ho.
    destruct (decide (name ∈ decls.*1)) as [Hin|Hnin].
    + apply list_elem_of_fmap in Hin as ([n T] & -> & Hin).
      apply list_elem_of_lookup in Hin as [i Hi].
      destruct (Hoff _ _ _ Hi) as [_ Ht]. simpl in *.
      exists T. split; [done|].
      destruct (declare_all_wf _ _ _ (empty_wf store p m) Hrun)
        as (_ & Hr & _).
      by apply (Hr n).
    + destruct (Hrest _ Hnin) as [Hl _].
      by rewrite Hl, lookup_empty in Ho.
  - intros name. split.
    + intros Hsome. destruct (decide (name ∈ decls.*1)) as [|Hnin]; [done|].
      destruct (Hrest _ Hnin) as [Hl _].
      rewrite Hl, lookup_empty in Hsome. by destruct Hsome.
    + intros Hin. apply list_elem_of_fmap in Hin as ([n T] & -> & Hin).
      apply list_elem_of_lookup in Hin as [i Hi].
      destruct (Hoff _ _ _ Hi) as [Ho _]. simpl. rewrite Ho. eauto.
Qed.

(** C3: on a well-formed ledger, for a name declared with type [T] and a
    value [v] of type [T] (its [footprint(T)] components): [get<T>(name)]
    yields a handle, writing [v] through it succeeds, [get<T>(name)] then
    yields the same handle and reading through it gives [v] back.  The same
    holds right after the declaration of [name]. *)
Theorem write_then_get_reads_back :
  (∀ T name (v : list scalar) s,
     ledger_wf s →
     type_ (self s) !! name = Some (GetStorageType T) →
     length v = GetStorageSize T →
     ∃ hd m',
       get T name s = (s, Ok hd) ∧
       view_write hd v (heap s) = Some m' ∧
       get T name (mkMachine (self s) m') = (mkMachine (self s) m', Ok hd) ∧
       view_read hd m' = Some v) ∧
  (∀ T name (v : list scalar) s s1,
     ledger_wf s →
     add uninit T name s = (s1, Ok tt) →
     length v = GetStorageSize T →
     ∃ hd m',
       get T name s1 = (s1, Ok hd) ∧
       view_write hd v (heap s1) = Some m' ∧
       get T name (mkMachine (self s1) m') = (mkMachine (self s1) m', Ok hd) ∧
       view_read hd m' = Some v).
Proof.
  assert (∀ T name (v : list scalar) s,
     ledger_wf s →
     type_ (self s) !! name = Some (GetStorageType T) →
     length v = GetStorageSize T →
     ∃ hd m',
       get T name s = (s, Ok hd) ∧
       view_write hd v (heap s) = Some m' ∧
       get T name (mkMachine (self s) m') = (mkMachine (self s) m', Ok hd) ∧
       view_read hd m' = Some v) as Hmain.
  { intros T name v s Hwf Ht Hlen.
    destruct (declared_has_offset _ _ _ (proj1 Hwf) Ht) as [o Ho].
    destruct (view_write_slot _ _ v _ _ Hwf Ho Ht Hlen) as [m' Hw].
    exists (handle_of T (ptr_add (storage_ (self s)) o)), m'.
    split; [by apply get_ok|]. split; [done|]. split.
    - by rewrite (get_ok T name (mkMachine (self s) m') o).
    - by eapply view_write_read. }
  split; [exact Hmain|].
  intros T name v s s1 Hwf Hadd Hlen.
  apply Hmain; [by eapply add_wf| |done].
  pose proof Hadd as Hadd'.
  apply add_ok_inv in Hadd' as (Hn & _ & _ & -> & _).
  assert (type_ (self s) !! name = None) as Hn' by by apply (proj1 Hwf).
  by rewrite (std_map_insert_fresh _ _ _ Hn'), lookup_insert_eq.
Qed.

(** C4: [get<T>(name)] throws [UnknownName] when [name] is not in the
    ledger and [TypeMismatch] when it is there with a tag other than that
    of [T].  In both cases the outcome is the same whatever the memory
    holds, and the ledger and the memory are returned as they were. *)
Theorem get_unknown_name_and_type_mismatch T name s :
  (loc_ (self s) !! name = None →
     get T name s = (s, Throw UnknownName) ∧
     ∀ m', get T name (mkMachine (self s) m')
             = (mkMachine (self s) m', Throw UnknownName)) ∧
  (∀ t, is_Some (loc_ (self s) !! name) →
     type_ (self s) !! name = Some t →
     t ≠ GetStorageType T →
     get T name s = (s, Throw TypeMismatch) ∧
     ∀ m', get T name (mkMachine (self s) m')
             = (mkMachine (self s) m', Throw TypeMismatch)).
Proof.
  split.
  - intros Ho. split; [by apply get_unknown|].
    intros m'. by apply get_unknown.
  - intros t Ho Ht Hne. split.
    + apply get_mismatch; [done|]. rewrite Ht. congruence.
    + intros m'. apply get_mismatch; [done|]. simpl. rewrite Ht. congruence.
Qed.

(** C5 (amended): a declaration that fails throws either
    [DuplicateDeclaration] or [UnsupportedResize]; in both cases the size,
    the ownership flag, the storage pointer and the memory are as before.
    When the name is already present the error is [DuplicateDeclaration]
    and the whole ledger, both maps included, is unchanged. *)
Theorem failed_add_keeps_size_and_storage T name s s' e :
  add uninit T name s = (s', Throw e) →
  (e = DuplicateDeclaration ∨ e = UnsupportedResize) ∧
  size_ (self s') = size_ (self s) ∧
  store_ (self s') = store_ (self s) ∧
  storage_ (self s') = storage_ (self s) ∧
  heap s' = heap s ∧
  (is_Some (loc_ (self s) !! name) → e = DuplicateDeclaration ∧ s' = s) ∧
  (e = DuplicateDeclaration → s' = s).
Proof.
  destruct (loc_ (self s) !! name) as [o|] eqn:Ho.
  - rewrite add_duplicate by (by rewrite Ho). intros [= <- <-].
    split; [by left|]. by do 4 (split; [done|]).
  - destruct (store_ (self s)) eqn:Hs.
    + by rewrite add_owning.
    + rewrite add_borrowed by done. intros [= <- <-]. simpl.
      split; [by right|]. do 4 (split; [done|]).
      split; [by intros [? ?]|done].
Qed.

(** C6: for a name declared as a scalar, [get<double>(name)] returns the
    reference to the double at [storage_ + loc_[name]], not a tensor
    object.  On a well-formed ledger that double is one of the [size_]
    doubles of the buffer, and assigning [x] through the reference is one
    store, after which that cell holds [x] and every other cell holds what
    it held. *)
Theorem get_double_returns_the_cell name s o :
  loc_ (self s) !! name = Some o →
  type_ (self s) !! name = Some TYPE_SCALAR →
  get T_double name s
    = (s, Ok (ScalarRef Mutable (ptr_add (storage_ (self s)) o))) ∧
  (ledger_wf s →
   o < size_ (self s) ∧
   ∀ x : scalar, ∃ m',
     view_write (ScalarRef Mutable (ptr_add (storage_ (self s)) o)) [x]
       (heap s) = Some m' ∧
     store_cell (ptr_add (storage_ (self s)) o) x (heap s) = Some m' ∧
     load_cell (ptr_add (storage_ (self s)) o) m' = Some x ∧
     ∀ p', p' ≠ ptr_add (storage_ (self s)) o →
           load_cell p' m' = load_cell p' (heap s)).
Proof.
  intros Ho Ht. split; [by apply (get_ok T_double)|].
  intros Hwf. split.
  - destruct Hwf as (_ & Hr & _). specialize (Hr name o T_double Ho Ht).
    simpl in Hr. lia.
  - intros x.
    destruct (store_cell_is_Some (ptr_add (storage_ (self s)) o) x (heap s))
      as [m' Hst].
    { rewrite <- (ptr_add_0 (ptr_add _ o)).
      by apply (slot_cells_live T_double name); [| | |simpl; lia]. }
    exists m'. unfold view_write. simpl. rewrite Hst. simpl.
    split; [done|]. split; [done|]. split.
    + by eapply load_store_eq.
    + intros p' Hne. by eapply load_store_ne.
Qed.

(** C7 (amended): the class has a single, const-qualified [get]; called on
    a const or on a mutable ledger it does the same thing, and the handle
    it returns is a mutable view in both cases: on a well-formed ledger a
    value written through it is stored in the buffer and read back. *)
Theorem get_is_one_const_member_with_mutable_view q T name s :
  get_via q T name s = get_via Const T name s ∧
  get_via q T name s = get_via Mutable T name s ∧
  (∀ s' hd, get_via q T name s = (s', Ok hd) →
     s' = s ∧ handle_qual hd = Mutable ∧
     (ledger_wf s → ∀ v : list scalar, length v = GetStorageSize T →
        ∃ m', view_write hd v (heap s) = Some m' ∧
              view_read hd m' = Some v)).
Proof.
  split; [done|]. split; [done|].
  intros s' hd Hget. unfold get_via in Hget.
  apply get_ok_inv in Hget as (-> & o & Ho & Ht & ->).
  split; [done|]. split; [apply handle_of_qual|].
  intros Hwf v Hlen.
  destruct (view_write_slot _ _ v _ _ Hwf Ho Ht Hlen) as [m' Hw].
  exists m'. split; [done|]. by eapply view_write_read.
Qed.

(** C9: the non-const [get_loc()] and [get_type()] are mutable references
    to [loc_] and [type_] themselves: reading through them gives the
    current maps, any maps at all can be assigned through them, nothing
    else in the ledger changes and nothing is checked; a later
    [get<T>(name)] takes the offset and the tag from the assigned maps,
    whatever the offset is. *)
Theorem get_loc_get_type_are_live_references :
  (ref_qual (get_loc Mutable) = Mutable ∧
   ref_qual (get_type Mutable) = Mutable) ∧
  (∀ h, ref_read (get_loc Mutable) h = loc_ h ∧
        ref_read (get_type Mutable) h = type_ h) ∧
  (∀ h locs,
     ref_assign (get_loc Mutable) locs h
       = Some (mkHistory (size_ h) (store_ h) (storage_ h) locs (type_ h))) ∧
  (∀ h types,
     ref_assign (get_type Mutable) types h
       = Some (mkHistory (size_ h) (store_ h) (storage_ h) (loc_ h) types)) ∧
  (∀ T name (s : Machine scalar) locs types h1 h2 o,
     ref_assign (get_loc Mutable) locs (self s) = Some h1 →
     ref_assign (get_type Mutable) types h1 = Some h2 →
     locs !! name = Some o →
     types !! name = Some (GetStorageType T) →
     get T name (mkMachine h2 (heap s))
       = (mkMachine h2 (heap s),
          Ok (handle_of T (ptr_add (storage_ (self s)) o)))).
Proof.
  split; [done|]. split; [done|]. split; [done|]. split; [done|].
  intros T name s locs types h1 h2 o [= <-] [= <-] Ho Ht.
  by rewrite (get_ok T name _ o).
Qed.

End Properties.

(** * The claims on the worked ledger *)

Lemma example_run :
  declare_all 0%Z example_decls owning0 = (example_machine, Ok tt).
Proof. vm_compute. reflexivity. Defined.

Lemma example_wf : ledger_wf example_machine.
Proof.
  exact (declare_all_wf 0%Z example_decls owning0 example_machine
           (empty_wf true nullptr heap0) example_run).
Defined.

(** The scenario of the spec: [stress] at 0, [hardening] at 6, size 7. *)
Lemma declared_slots_tile_the_buffer_witness :
  declare_all 0%Z example_decls owning0 = (example_machine, Ok tt) ∧
  size example_machine = (example_machine, Ok 7) ∧
  (∀ name, is_Some (loc_ (self example_machine) !! name) ↔
           name ∈ ["stress"%string; "hardening"%string]) ∧
  loc_ (self example_machine) !! "stress"%string = Some 0 ∧
  loc_ (self example_machine) !! "hardening"%string = Some 6.
Proof.
  split; [exact example_run|].
  destruct (declared_slots_tile_the_buffer 0%Z true nullptr heap0
              example_decls example_machine example_run)
    as (_ & _ & Hsz & _ & Hkeys).
  split; [exact Hsz|]. split; [exact Hkeys|].
  split; vm_compute; reflexivity.
Defined.

Lemma add_records_offset_tag_and_grows_witness :
  loc_ (self example_machine) !! "damage"%string = None ∧
  type_ (self example_machine) !! "damage"%string = None ∧
  store_ (self example_machine) = true ∧
  (∃ s', add 0%Z T_Vector "damage"%string example_machine = (s', Ok tt) ∧
         loc_ (self s') !! "damage"%string = Some 7 ∧
         type_ (self s') !! "damage"%string = Some TYPE_VECTOR ∧
         size_ (self s') = 10) ∧
  loc_ (self example_machine) !! "hardening"%string
    = Some (footprints (take 1 example_decls)).
Proof.
  assert (loc_ (self example_machine) !! "damage"%string = None) as Hl
    by (vm_compute; reflexivity).
  assert (type_ (self example_machine) !! "damage"%string = None) as Ht
    by (vm_compute; reflexivity).
  assert (store_ (self example_machine) = true) as Hs
    by (vm_compute; reflexivity).
  destruct (add_records_offset_tag_and_grows 0%Z) as [Hstep Hseq].
  destruct (Hstep T_Vector "damage"%string example_machine Hl Ht)
    as (s' & r & Hadd & Hl' & Ht' & _ & Hown & _).
  destruct (Hown Hs) as [Hok Hsz].
  split; [exact Hl|]. split; [exact Ht|]. split; [exact Hs|]. split.
  - exists s'. rewrite <- Hok. split; [exact Hadd|].
    rewrite Hl', Ht', Hsz, !lookup_insert_eq.
    split; [reflexivity|]. split; reflexivity.
  - exact (proj1 (Hseq true nullptr heap0 example_decls example_machine 1
                    "hardening"%string T_double example_run eq_refl)).
Defined.

(** A non-owning ledger and a name it does not have: the call throws and
    the size is not grown. *)
Lemma add_on_borrowed_ledger_does_not_grow :
  ∃ s',
    loc_ (self borrowed0) !! "x"%string = None ∧
    type_ (self borrowed0) !! "x"%string = None ∧
    add 0%Z T_double "x"%string borrowed0 = (s', Throw UnsupportedResize) ∧
    size_ (self s') = size_ (self borrowed0) ∧
    size_ (self s') ≠ size_ (self borrowed0) + GetStorageSize T_double.
Proof.
  exists (add 0%Z T_double "x"%string borrowed0).1.
  split; [vm_compute; reflexivity|].
  split; [vm_compute; reflexivity|].
  split; [vm_compute; reflexivity|].
  split; [vm_compute; reflexivity|].
  vm_compute. discriminate.
Qed.



Lemma write_then_get_reads_back_witness :
  ledger_wf example_machine ∧
  type_ (self example_machine) !! "stress"%string
    = Some (GetStorageType T_Symmetric) ∧
  (∃ hd m',
     get T_Symmetric "stress"%string example_machine
       = (example_machine, Ok hd) ∧
     view_write hd [1; 2; 3; 4; 5; 6]%Z (heap example_machine) = Some m' ∧
     view_read hd m' = Some [1; 2; 3; 4; 5; 6]%Z) ∧
  (∃ s1 hd m',
     add 0%Z T_double "x"%string owning0 = (s1, Ok tt) ∧
     get T_double "x"%string s1 = (s1, Ok hd) ∧
     view_write hd [42]%Z (heap s1) = Some m' ∧
     view_read hd m' = Some [42]%Z).
Proof.
  destruct (write_then_get_reads_back 0%Z) as [Hdecl Hfresh].
  assert (type_ (self example_machine) !! "stress"%string
            = Some (GetStorageType T_Symmetric)) as Ht
    by (vm_compute; reflexivity).
  split; [exact example_wf|]. split; [exact Ht|]. split.
  - destruct (Hdecl T_Symmetric "stress"%string [1; 2; 3; 4; 5; 6]%Z
                example_machine example_wf Ht eq_refl)
      as (hd & m' & Hg & Hw & _ & Hr).
    exists hd, m'. split; [exact Hg|]. split; [exact Hw|exact Hr].
  - destruct (Hfresh T_double "x"%string [42]%Z owning0
                (add 0%Z T_double "x"%string owning0).1
                (empty_wf true nullptr heap0) eq_refl eq_refl)
      as (hd & m' & Hg & Hw & _ & Hr).
    exists (add 0%Z T_double "x"%string owning0).1, hd, m'.
    split; [reflexivity|]. split; [exact Hg|]. split; [exact Hw|exact Hr].
Defined.

Lemma get_unknown_name_and_type_mismatch_witness :
  loc_ (self example_machine) !! "damage"%string = None ∧
  get T_double "damage"%string example_machine
    = (example_machine, Throw UnknownName) ∧
  is_Some (loc_ (self example_machine) !! "stress"%string) ∧
  type_ (self example_machine) !! "stress"%string = Some TYPE_SYMMETRIC ∧
  TYPE_SYMMETRIC ≠ GetStorageType T_Orientation ∧
  get T_Orientation "stress"%string example_machine
    = (example_machine, Throw TypeMismatch).
Proof.
  assert (loc_ (self example_machine) !! "damage"%string = None) as Hl
    by (vm_compute; reflexivity).
  assert (is_Some (loc_ (self example_machine) !! "stress"%string)) as Hs
    by (exists 0; vm_compute; reflexivity).
  assert (type_ (self example_machine) !! "stress"%string
            = Some TYPE_SYMMETRIC) as Ht
    by (vm_compute; reflexivity).
  assert (TYPE_SYMMETRIC ≠ GetStorageType T_Orientation) as Hne
    by (simpl; discriminate).
  split; [exact Hl|]. split.
  - exact (proj1 (proj1 (get_unknown_name_and_type_mismatch
                           T_double "damage"%string example_machine) Hl)).
  - split; [exact Hs|]. split; [exact Ht|]. split; [exact Hne|].
    exact (proj1 (proj2 (get_unknown_name_and_type_mismatch
                           T_Orientation "stress"%string example_machine)
                    TYPE_SYMMETRIC Hs Ht Hne)).
Defined.

(** A non-owning ledger: the declaration throws in [resize], after the two
    maps have received the name. *)
Lemma failed_add_leaves_name_in_maps :
  ∃ s', add 0%Z T_double "x"%string borrowed0
          = (s', Throw UnsupportedResize) ∧
        loc_ (self borrowed0) !! "x"%string = None ∧
        type_ (self borrowed0) !! "x"%string = None ∧
        loc_ (self s') !! "x"%string = Some 0 ∧
        type_ (self s') !! "x"%string = Some TYPE_SCALAR ∧
        s' ≠ borrowed0.
Proof.
  exists (add 0%Z T_double "x"%string borrowed0).1.
  split; [vm_compute; reflexivity|].
  split; [vm_compute; reflexivity|].
  split; [vm_compute; reflexivity|].
  split; [vm_compute; reflexivity|].
  split; [vm_compute; reflexivity|].
  intros Heq.
  apply (f_equal (λ s : Machine Z, loc_ (self s) !! "x"%string)) in Heq.
  vm_compute in Heq. discriminate Heq.
Qed.

Lemma failed_add_keeps_size_and_storage_witness :
  add 0%Z T_double "stress"%string example_machine
    = (example_machine, Throw DuplicateDeclaration) ∧
  is_Some (loc_ (self example_machine) !! "stress"%string) ∧
  (add 0%Z T_double "x"%string borrowed0).2 = Throw UnsupportedResize ∧
  size_ (self (add 0%Z T_double "x"%string borrowed0).1) = 0 ∧
  heap (add 0%Z T_double "x"%string borrowed0).1 = heap0.
Proof.
  assert (add 0%Z T_double "stress"%string example_machine
            = (example_machine, Throw DuplicateDeclaration)) as Hdup
    by (vm_compute; reflexivity).
  assert (add 0%Z T_double "x"%string borrowed0
            = ((add 0%Z T_double "x"%string borrowed0).1,
               Throw UnsupportedResize)) as Hres
    by (vm_compute; reflexivity).
  split; [exact Hdup|].
  split; [exists 0; vm_compute; reflexivity|].
  split; [vm_compute; reflexivity|].
  destruct (failed_add_keeps_size_and_storage 0%Z T_double "x"%string
              borrowed0 _ _ Hres) as (_ & Hsz & _ & _ & Hheap & _).
  destruct (failed_add_keeps_size_and_storage 0%Z T_double "stress"%string
              example_machine _ _ Hdup) as (_ & _ & _ & _ & _ & _ & Hsame).
  split; [exact Hsz|exact Hheap].
Defined.

Lemma get_double_returns_the_cell_witness :
  ledger_wf example_machine ∧
  loc_ (self example_machine) !! "hardening"%string = Some 6 ∧
  type_ (self example_machine) !! "hardening"%string = Some TYPE_SCALAR ∧
  get T_double "hardening"%string example_machine
    = (example_machine, Ok (ScalarRef Mutable (mkPtr 2 6))) ∧
  ∃ m', store_cell (mkPtr 2 6) 5%Z (heap example_machine) = Some m' ∧
        load_cell (mkPtr 2 6) m' = Some 5%Z ∧
        load_cell (mkPtr 2 5) m' = load_cell (mkPtr 2 5) (heap example_machine).
Proof.
  assert (loc_ (self example_machine) !! "hardening"%string = Some 6)
    as Hl by (vm_compute; reflexivity).
  assert (type_ (self example_machine) !! "hardening"%string
            = Some TYPE_SCALAR) as Ht by (vm_compute; reflexivity).
  destruct (get_double_returns_the_cell "hardening"%string example_machine
              6 Hl Ht) as (Hg & Hcell).
  destruct (Hcell example_wf) as (_ & Hw).
  split; [exact example_wf|]. split; [exact Hl|]. split; [exact Ht|].
  split; [exact Hg|].
  destruct (Hw 5%Z) as (m' & _ & Hst & Hld & Hother).
  exists m'. split; [exact Hst|]. split; [exact Hld|].
  apply Hother. discriminate.
Defined.

(** On a const ledger [get<double>] returns a reference through which the
    buffer is written: the cell held 0 and holds 5 afterwards. *)
Lemma get_on_const_ledger_writes_buffer :
  ∃ hd m',
    get_via Const T_double "hardening"%string example_machine
      = (example_machine, Ok hd) ∧
    view_read hd (heap example_machine) = Some [0%Z] ∧
    view_write hd [5%Z] (heap example_machine) = Some m' ∧
    view_read hd m' = Some [5%Z] ∧
    m' ≠ heap example_machine.
Proof.
  exists (ScalarRef Mutable (mkPtr 2 6)).
  destruct (view_write (ScalarRef Mutable (mkPtr 2 6)) [5%Z]
              (heap example_machine)) as [m'|] eqn:Hw;
    [|vm_compute in Hw; discriminate Hw].
  exists m'.
  split; [vm_compute; reflexivity|].
  split; [vm_compute; reflexivity|].
  split; [reflexivity|].
  assert (view_read (ScalarRef Mutable (mkPtr 2 6)) m' = Some [5%Z]) as Hr
    by exact (view_write_read _ _ _ _ Hw).
  split; [exact Hr|].
  intros ->. vm_compute in Hr. discriminate Hr.
Qed.

Lemma get_is_one_const_member_with_mutable_view_witness :
  get_via Const T_Symmetric "stress"%string example_machine
    = (example_machine, Ok (TensorView T_Symmetric Mutable (mkPtr 2 0))) ∧
  handle_qual (TensorView T_Symmetric Mutable (mkPtr 2 0)) = Mutable ∧
  ledger_wf example_machine ∧
  ∃ m', view_write (TensorView T_Symmetric Mutable (mkPtr 2 0))
          [1; 2; 3; 4; 5; 6]%Z (heap example_machine) = Some m' ∧
        view_read (TensorView T_Symmetric Mutable (mkPtr 2 0)) m'
          = Some [1; 2; 3; 4; 5; 6]%Z.
Proof.
  assert (get_via Const T_Symmetric "stress"%string example_machine
    = (example_machine, Ok (TensorView T_Symmetric Mutable (mkPtr 2 0))))
    as Hg by (vm_compute; reflexivity).
  destruct (get_is_one_const_member_with_mutable_view Const T_Symmetric
              "stress"%string example_machine) as (_ & _ & Hview).
  destruct (Hview _ _ Hg) as (_ & Hq & Hrw).
  split; [exact Hg|]. split; [exact Hq|]. split; [exact example_wf|].
  exact (Hrw example_wf [1; 2; 3; 4; 5; 6]%Z eq_refl).
Defined.

(** An offset far beyond the size and another tag, written through the
    references: [get] follows them. *)
Lemma get_loc_get_type_are_live_references_witness :
  ∃ h1 h2,
    ref_assign (get_loc Mutable) {["hardening"%string := 1000]}
      (self example_machine) = Some h1 ∧
    ref_assign (get_type Mutable) {["hardening"%string := TYPE_RANKTWO]} h1
      = Some h2 ∧
    size_ h2 = 7 ∧
    get T_RankTwo "hardening"%string (mkMachine h2 (heap example_machine))
      = (mkMachine h2 (heap example_machine),
         Ok (TensorView T_RankTwo Mutable (mkPtr 2 1000))).
Proof.
  destruct (get_loc_get_type_are_live_references (scalar := Z))
    as (_ & _ & Hloc & Htype & Hget).
  eexists _, _.
  split; [apply Hloc|]. split; [apply Htype|]. split; [reflexivity|].
  refine (Hget T_RankTwo "hardening"%string example_machine _ _ _ _ 1000
            (Hloc _ _) (Htype _ _) _ _).
  - apply lookup_singleton_eq.
  - apply lookup_singleton_eq.
Defined.

Lemma TYPE_ARRAY_never_declared_never_matched_witness :
  type_ (self example_machine) !! "stress"%string ≠ Some TYPE_ARRAY ∧
  (∃ h2 e,
     ref_assign (get_type Mutable) {["stress"%string := TYPE_ARRAY]}
       (self example_machine) = Some h2 ∧
     get T_Symmetric "stress"%string (mkMachine h2 (heap example_machine))
       = (mkMachine h2 (heap example_machine), Throw e) ∧
     e = TypeMismatch) ∧
  (∃ s', add 0%Z T_Skew "spin"%string example_machine = (s', Ok tt) ∧
         type_ (self s') !! "spin"%string = Some TYPE_SKEW).
Proof.
  destruct (TYPE_ARRAY_never_declared_never_matched 0%Z)
    as (_ & _ & Hadd & Hseq & Hget).
  split; [exact (Hseq true nullptr heap0 example_decls example_machine
                   "stress"%string example_run)|].
  split.
  - eexists _. 
    destruct (Hget T_Symmetric "stress"%string
                (mkMachine
                   (set_type_ {["stress"%string := TYPE_ARRAY]}
                      (self example_machine))
                   (heap example_machine)))
      as (e & Hthrow & Hkind).
    { apply lookup_singleton_eq. }
    exists e. split; [reflexivity|]. split; [exact Hthrow|].
    apply Hkind. exists 0. vm_compute. reflexivity.
  - exists (add 0%Z T_Skew "spin"%string example_machine).1.
    assert (add 0%Z T_Skew "spin"%string example_machine
              = ((add 0%Z T_Skew "spin"%string example_machine).1, Ok tt))
      as Hok by (vm_compute; reflexivity).
    split; [exact Hok|].
    refine (Hadd T_Skew "spin"%string example_machine _ _ Hok).
    vm_compute. reflexivity.
Defined.

(** * Further properties of the code *)

Section MoreProperties.

Context {scalar : Type} (uninit : scalar).

Implicit Types (s : Machine scalar) (m : Heap scalar) (h : History).
Implicit Types (T : ValueType) (name : string) (p : Ptr).

(** *** Reading several cells *)

Lemma load_cells_ext n : ∀ p m m',
  (∀ k, k < n → load_cell (ptr_add p k) m' = load_cell (ptr_add p k) m) →
  load_cells p n m' = load_cells p n m.
Proof.
  induction n as [|n IH]; intros p m m' Hsame; simpl; [done|].
  pose proof (Hsame 0 ltac:(lia)) as H0. rewrite ptr_add_0 in H0.
  rewrite H0. rewrite (IH (ptr_add p 1) m m'); [done|].
  intros k Hk. rewrite !ptr_add_add. apply Hsame. lia.
Qed.

Lemma load_cells_store_inside (x : scalar) n : ∀ p k l m m',
  k < n →
  load_cells p n m = Some l →
  store_cell (ptr_add p k) x m = Some m' →
  load_cells p n m' = Some (<[k := x]> l).
Proof.
  induction n as [|n IH]; intros p k l m m' Hk Hl Hst; [lia|].
  simpl in Hl.
  destruct (load_cell p m) as [x0|] eqn:E0; simpl in Hl; [|done].
  destruct (load_cells (ptr_add p 1) n m) as [xs|] eqn:Exs;
    simpl in Hl; [|done].
  injection Hl as <-. simpl.
  destruct k as [|k].
  - rewrite ptr_add_0 in Hst.
    rewrite (load_store_eq _ _ _ _ Hst). simpl.
    rewrite (load_cells_ext n (ptr_add p 1) m m'); [by rewrite Exs|].
    intros j Hj. apply (load_store_ne _ _ _ _ _ Hst).
    destruct p as [b o]. unfold ptr_add. simpl. intros [=]. lia.
  - rewrite (load_store_ne _ _ _ _ _ Hst), E0.
    2: { destruct p as [b o]. unfold ptr_add. simpl. intros [=]. lia. }
    simpl. rewrite (IH (ptr_add p 1) k xs m m'); [done|lia|done|].
    rewrite ptr_add_add. by replace (1 + k) with (S k) by lia.
Qed.

(** *** Declarations keep what is there *)

Lemma std_map_insert_subseteq {V : Type} (k : string) (v : V)
    (mp : gmap string V) :
  mp ⊆ std_map_insert k v mp.
Proof.
  unfold std_map_insert. destruct (mp !! k) eqn:Hk; [done|].
  by apply insert_subseteq.
Qed.

Lemma add_keeps T name s s' (r : Outcome unit) :
  add uninit T name s = (s', r) →
  loc_ (self s) ⊆ loc_ (self s') ∧
  type_ (self s) ⊆ type_ (self s') ∧
  size_ (self s) ≤ size_ (self s') ∧
  store_ (self s') = store_ (self s) ∧
  (same_keys (self s) → same_keys (self s')).
Proof.
  destruct (loc_ (self s) !! name) as [o|] eqn:Ho.
  { rewrite add_duplicate by (by rewrite Ho). by intros [= <- <-]. }
  assert (∀ sz b st,
    same_keys (self s) →
    same_keys (mkHistory sz b st (<[name := size_ (self s)]> (loc_ (self s)))
                 (std_map_insert name (GetStorageType T) (type_ (self s)))))
    as Hkeys.
  { intros sz b st Hk name'. simpl.
    assert (type_ (self s) !! name = None) as Hn by by apply Hk.
    rewrite (std_map_insert_fresh _ _ _ Hn).
    destruct (decide (name = name')) as [->|Hne].
    - by rewrite !lookup_insert_eq.
    - rewrite !lookup_insert_ne by done. apply Hk. }
  destruct (store_ (self s)) eqn:Hs.
  - rewrite add_owning by done. intros [= <- <-]. simpl.
    split; [by apply insert_subseteq|].
    split; [apply std_map_insert_subseteq|].
    split; [lia|]. split; [done|]. apply Hkeys.
  - rewrite add_borrowed by done. intros [= <- <-]. simpl.
    split; [by apply insert_subseteq|].
    split; [apply std_map_insert_subseteq|].
    split; [lia|]. split; [done|]. apply Hkeys.
Qed.

Lemma add_owning_outcomes T name s :
  store_ (self s) = true →
  (∃ s', add uninit T name s = (s', Ok tt)) ∨
  add uninit T name s = (s, Throw DuplicateDeclaration).
Proof.
  intros Hs. destruct (loc_ (self s) !! name) as [o|] eqn:Ho.
  - right. apply add_duplicate. by rewrite Ho.
  - left. eexists. by apply add_owning.
Qed.

(** The names of a successful run are distinct and were all absent. *)
Lemma declare_all_ok_names decls : ∀ s s',
  declare_all uninit decls s = (s', Ok tt) →
  NoDup decls.*1 ∧ (∀ name, name ∈ decls.*1 → loc_ (self s) !! name = None).
Proof.
  induction decls as [|[n T] rest IH]; intros s s' Hrun.
  - split; [constructor|]. by intros name Hin%elem_of_nil.
  - rewrite declare_all_cons in Hrun.
    destruct (add uninit T n s) as [s1 [[]|e]] eqn:Hadd; [|done].
    apply add_ok_inv in Hadd as (Hn & _ & Hl & _).
    destruct (IH _ _ Hrun) as [Hnd Hfresh].
    assert (n ∉ rest.*1) as Hnin.
    { intros Hin. specialize (Hfresh _ Hin).
      by rewrite Hl, lookup_insert_eq in Hfresh. }
    split; [by constructor|].
    intros name [->|Hin]%elem_of_cons; [done|].
    specialize (Hfresh _ Hin). rewrite Hl in Hfresh.
    destruct (decide (n = name)) as [->|Hne]; [done|].
    by rewrite lookup_insert_ne in Hfresh.
Qed.

(** ** The properties *)

(** X1: [get<T>(name)] has three outcomes and no other: [UnknownName] when
    the name has no offset, [TypeMismatch] when it has one and its tag is
    not that of [T], and otherwise the handle over [storage_ + loc_[name]].
    The [at] in its last line never throws, and the ledger and the memory
    are returned as they were. *)
Theorem get_has_three_outcomes T name s :
  (get T name s).1 = s ∧
  match (get T name s).2 with
  | Ok hd =>
      ∃ o, loc_ (self s) !! name = Some o ∧
           type_ (self s) !! name = Some (GetStorageType T) ∧
           hd = handle_of T (ptr_add (storage_ (self s)) o)
  | Throw e =>
      (e = UnknownName ∧ loc_ (self s) !! name = None) ∨
      (e = TypeMismatch ∧ is_Some (loc_ (self s) !! name) ∧
       type_ (self s) !! name ≠ Some (GetStorageType T))
  end.
Proof.
  split; [apply get_pure|].
  destruct (loc_ (self s) !! name) as [o|] eqn:Ho.
  - destruct (decide (type_ (self s) !! name = Some (GetStorageType T)))
      as [Ht|Ht].
    + rewrite (get_ok _ _ _ _ Ho Ht). simpl. eauto.
    + rewrite get_mismatch; [|by rewrite Ho|done]. simpl. right. eauto.
  - rewrite get_unknown by done. simpl. by left.
Qed.

(** X2: a name can be fetched at one type only.  Two successful [get]s on
    the same name have the same template argument and return the same
    handle; after a run of declarations, [get<U>] on a declared name
    succeeds exactly when [U] is the declared type, also when the two types
    have the same footprint. *)
Theorem get_succeeds_at_the_declared_type_only :
  (∀ T1 T2 name s s1 s2 hd1 hd2,
     get T1 name s = (s1, Ok hd1) →
     get T2 name s = (s2, Ok hd2) →
     T1 = T2 ∧ hd1 = hd2) ∧
  (∀ store p m decls s' i name T U,
     declare_all uninit decls (mkMachine (History_empty store p) m)
       = (s', Ok tt) →
     decls !! i = Some (name, T) →
     (∃ hd, get U name s' = (s', Ok hd)) ↔ U = T).
Proof.
  split.
  - intros T1 T2 name s s1 s2 hd1 hd2 H1 H2.
    apply get_ok_inv in H1 as (_ & o1 & Ho1 & Ht1 & ->).
    apply get_ok_inv in H2 as (_ & o2 & Ho2 & Ht2 & ->).
    rewrite Ht1 in Ht2. injection Ht2 as Ht.
    apply GetStorageType_inj in Ht as ->.
    rewrite Ho1 in Ho2. by injection Ho2 as ->.
  - intros store p m decls s' i name T U Hrun Hi.
    destruct (declare_all_offsets uninit _ _ _ Hrun)
      as (_ & _ & _ & Hoff & _).
    { intros n. simpl. by rewrite !lookup_empty. }
    destruct (Hoff _ _ _ Hi) as [Ho Ht]. split.
    + intros [hd Hg]. apply get_ok_inv in Hg as (_ & o & _ & Ht' & _).
      rewrite Ht in Ht'. injection Ht' as Heq.
      by apply GetStorageType_inj in Heq.
    + intros ->. eexists. by apply (get_ok T name s' _ Ho Ht).
Qed.

(** X3: a declaration never moves, retypes or removes what is there.
    Whatever [add] or a run of [add]s returns or throws, every offset and
    every tag recorded before is recorded unchanged after, the size has
    not decreased, the ownership flag is the same, and the two maps have
    the same keys if they had. *)
Theorem declarations_keep_existing_slots :
  (∀ T name s s' (r : Outcome unit),
     add uninit T name s = (s', r) →
     loc_ (self s) ⊆ loc_ (self s') ∧
     type_ (self s) ⊆ type_ (self s') ∧
     size_ (self s) ≤ size_ (self s') ∧
     store_ (self s') = store_ (self s) ∧
     (same_keys (self s) → same_keys (self s'))) ∧
  (∀ decls s s' (r : Outcome unit),
     declare_all uninit decls s = (s', r) →
     loc_ (self s) ⊆ loc_ (self s') ∧
     type_ (self s) ⊆ type_ (self s') ∧
     size_ (self s) ≤ size_ (self s') ∧
     store_ (self s') = store_ (self s) ∧
     (same_keys (self s) → same_keys (self s'))).
Proof.
  split; [exact add_keeps|].
  induction decls as [|[n T] rest IH]; intros s s' r Hrun.
  - injection Hrun as <- <-. done.
  - rewrite declare_all_cons in Hrun.
    destruct (add uninit T n s) as [s1 [[]|e]] eqn:Hadd.
    + destruct (add_keeps _ _ _ _ _ Hadd) as (Hl & Ht & Hsz & Hs & Hk).
      destruct (IH _ _ _ Hrun) as (Hl' & Ht' & Hsz' & Hs' & Hk').
      split; [by etrans|]. split; [by etrans|]. split; [lia|].
      split; [congruence|]. auto.
    + injection Hrun as <- <-. by apply (add_keeps _ _ _ _ _ Hadd).
Qed.

(** X4: on an owning ledger a run of declarations goes through exactly
    when the names are distinct and none of them has an offset yet; if it
    does not, the error is [DuplicateDeclaration]. *)
Theorem declarations_succeed_iff_names_are_new decls s :
  store_ (self s) = true →
  ((∃ s', declare_all uninit decls s = (s', Ok tt)) ↔
   NoDup decls.*1 ∧ ∀ name, name ∈ decls.*1 → loc_ (self s) !! name = None) ∧
  (∀ s' e, declare_all uninit decls s = (s', Throw e) →
           e = DuplicateDeclaration).
Proof.
  intros Hs. split.
  - split.
    + intros [s' Hrun]. by eapply declare_all_ok_names.
    + intros [Hnd Hfresh]. by apply declare_all_succeeds.
  - revert s Hs. induction decls as [|[n T] rest IH]; intros s Hs s' e Hrun.
    + done.
    + rewrite declare_all_cons in Hrun.
      destruct (add_owning_outcomes T n s Hs) as [[s1 Hadd]|Hadd];
        rewrite Hadd in Hrun.
      * eapply (IH s1); [|exact Hrun].
        by apply add_ok_inv in Hadd as (_ & _ & _ & _ & _ & ? & _).
      * by injection Hrun as _ <-.
Qed.

(** X5: the slots of a declared ledger do not interfere.  After a run of
    declarations, a value written through the handle of one declared
    variable leaves what is read through the handle of any other declared
    variable as it was, whatever the memory held. *)
Theorem writing_one_slot_leaves_the_others
    store p m0 decls s' i j n1 T1 n2 T2 hd1 hd2 :
  declare_all uninit decls (mkMachine (History_empty store p) m0)
    = (s', Ok tt) →
  decls !! i = Some (n1, T1) →
  decls !! j = Some (n2, T2) →
  i ≠ j →
  get T1 n1 s' = (s', Ok hd1) →
  get T2 n2 s' = (s', Ok hd2) →
  ∀ (v : list scalar) m m',
    view_write hd1 v m = Some m' →
    view_read hd2 m' = view_read hd2 m.
Proof.
  intros Hrun Hi Hj Hij Hg1 Hg2 v m m' Hw.
  destruct (declare_all_offsets uninit _ _ _ Hrun)
    as (_ & _ & _ & Hoff & _).
  { intros n. simpl. by rewrite !lookup_empty. }
  simpl in Hoff.
  apply get_ok_inv in Hg1 as (_ & o1 & Ho1 & _ & ->).
  apply get_ok_inv in Hg2 as (_ & o2 & Ho2 & _ & ->).
  destruct (Hoff _ _ _ Hi) as [Ho1' _]. destruct (Hoff _ _ _ Hj) as [Ho2' _].
  rewrite Ho1' in Ho1. rewrite Ho2' in Ho2.
  injection Ho1 as <-. injection Ho2 as <-.
  unfold view_read. rewrite handle_of_ptr, handle_of_size.
  apply load_cells_ext. intros k Hk.
  apply (view_write_outside _ _ _ _ _ Hw).
  rewrite handle_of_ptr, handle_of_size.
  unfold outside, ptr_add. simpl. right.
  destruct (decide (i < j)) as [Hlt|Hge].
  - pose proof (footprints_slot_before _ _ _ _ _ Hlt Hi). right. lia.
  - assert (j < i) as Hlt by lia.
    pose proof (footprints_slot_before _ _ _ _ _ Hlt Hj). left. lia.
Qed.

(** X6: the typed views and the raw pointer are the same memory.  When
    [get<T>(name)] returns a handle, reading through it is reading
    [footprint(T)] doubles at [rawptr() + get_loc().at(name)], and a store
    through the non-const [rawptr()] at that offset plus [k] changes
    component [k] of what the handle reads and nothing else of it; through
    the const [rawptr()] no store is admitted. *)
Theorem views_alias_the_raw_buffer q T name s hd :
  get T name s = (s, Ok hd) →
  ∃ o qp,
    ref_read (get_loc q) (self s) !! name = Some o ∧
    rawptr q s = (s, Ok qp) ∧
    qp.1 = q ∧
    (∀ m, view_read hd m = load_cells (ptr_add qp.2 o) (GetStorageSize T) m) ∧
    (∀ m m' k (x : scalar) l,
       q = Mutable →
       k < GetStorageSize T →
       view_read hd m = Some l →
       raw_write qp (o + k) x m = Some m' →
       view_read hd m' = Some (<[k := x]> l)) ∧
    (q = Const → ∀ k (x : scalar) m, raw_write qp k x m = None).
Proof.
  intros Hg. apply get_ok_inv in Hg as (_ & o & Ho & _ & ->).
  exists o, (q, storage_ (self s)).
  split; [done|]. split; [done|]. split; [done|].
  unfold view_read. rewrite handle_of_ptr, handle_of_size. simpl.
  split; [done|]. split.
  - intros m m' k x l -> Hk Hl Hst. unfold raw_write in Hst. simpl in Hst.
    rewrite <- ptr_add_add in Hst.
    by apply (load_cells_store_inside x _ _ k l m m').
  - by intros ->.
Qed.

(** X7: the size and the types of a ledger do not depend on the order of
    the declarations.  Two successful runs from the same ledger whose lists
    are permutations of each other end with the same size, the same
    name-to-type map and the same names. *)
Theorem declaration_order_changes_offsets_only decls1 decls2 s s1 s2 :
  same_keys (self s) →
  decls1 ≡ₚ decls2 →
  declare_all uninit decls1 s = (s1, Ok tt) →
  declare_all uninit decls2 s = (s2, Ok tt) →
  size_ (self s1) = size_ (self s2) ∧
  type_ (self s1) = type_ (self s2) ∧
  dom (loc_ (self s1)) = dom (loc_ (self s2)).
Proof.
  intros Hk Hperm Hrun1 Hrun2.
  destruct (declare_all_offsets uninit _ _ _ Hrun1 Hk)
    as (Hsz1 & _ & _ & Hoff1 & Hrest1).
  destruct (declare_all_offsets uninit _ _ _ Hrun2 Hk)
    as (Hsz2 & _ & _ & Hoff2 & Hrest2).
  assert (∀ name, name ∈ decls1.*1 ↔ name ∈ decls2.*1) as Hnames.
  { intros name. by rewrite Hperm. }
  split; [|split].
  - rewrite Hsz1, Hsz2. unfold footprints. by rewrite Hperm.
  - apply map_eq. intros name.
    destruct (decide (name ∈ decls1.*1)) as [Hin|Hnin].
    + apply list_elem_of_fmap in Hin as ([n T] & -> & Hin).
      assert ((n, T) ∈ decls2) as Hin2 by by rewrite <- Hperm.
      apply list_elem_of_lookup in Hin as [i1 Hi1].
      apply list_elem_of_lookup in Hin2 as [i2 Hi2]. simpl.
      destruct (Hoff1 _ _ _ Hi1) as [_ ->].
      by destruct (Hoff2 _ _ _ Hi2) as [_ ->].
    + destruct (Hrest1 _ Hnin) as [_ ->].
      assert (name ∉ decls2.*1) as Hnin2 by by rewrite <- Hnames.
      by destruct (Hrest2 _ Hnin2) as [_ ->].
  - apply set_eq. intros name. rewrite !elem_of_dom.
    destruct (decide (name ∈ decls1.*1)) as [Hin|Hnin].
    + pose proof Hin as Hin2. apply Hnames in Hin2.
      apply list_elem_of_fmap in Hin as ([n T] & -> & Hin).
      apply list_elem_of_lookup in Hin as [i1 Hi1].
      apply list_elem_of_fmap in Hin2 as ([n' T'] & Heq & Hin2).
      apply list_elem_of_lookup in Hin2 as [i2 Hi2].
      simpl in Heq. subst n'. simpl.
      destruct (Hoff1 _ _ _ Hi1) as [-> _].
      destruct (Hoff2 _ _ _ Hi2) as [-> _]. split; eauto.
    + destruct (Hrest1 _ Hnin) as [-> _].
      assert (name ∉ decls2.*1) as Hnin2 by by rewrite <- Hnames.
      by destruct (Hrest2 _ Hnin2) as [-> _].
Qed.

End MoreProperties.

(** X8: [dtype] is specialised exactly for pairs of [double] and
    [Symmetric] and does not depend on the order of its arguments; the
    derivative with respect to a scalar has the type of the variable; the
    result is a type a [History] can hold exactly when one of the two
    arguments is [double], and then it has as many components as the
    product of the footprints of the arguments.  So all of [VV], [Vs] and
    [VS] exist for [double] and [Symmetric] only, and [VV] of [Symmetric]
    is the one that has no slot type. *)
Theorem dtype_table :
  (∀ A B, is_Some (dtype A B) ↔
          (A = T_double ∨ A = T_Symmetric) ∧
          (B = T_double ∨ B = T_Symmetric)) ∧
  (∀ A B, dtype A B = dtype B A) ∧
  (∀ V, is_Some (Vs V) → Vs V = Some (D_value V)) ∧
  (∀ A B D, dtype A B = Some D →
     (is_Some (storable D) ↔ A = T_double ∨ B = T_double)) ∧
  (∀ A B T, dtype A B = Some (D_value T) →
     GetStorageSize T = GetStorageSize A * GetStorageSize B) ∧
  (∀ V, is_Some (VV V) ∧ is_Some (Vs V) ∧ is_Some (VS V) ↔
        V = T_double ∨ V = T_Symmetric) ∧
  (∀ V D, VV V = Some D → (storable D = None ↔ V = T_Symmetric)).
Proof.
  split; [|split; [|split; [|split; [|split; [|split]]]]].
  - intros A B. destruct A, B; simpl; split;
      try (intros [? [=]]); try (intros [[[=]|[=]] [[=]|[=]]]);
      eauto.
  - by intros [] [].
  - intros V. destruct V; simpl; try (by intros [? [=]]); done.
  - intros A B D. destruct A, B; simpl; intros [= <-]; simpl; split;
      try (intros [? [=]]); try (intros [[=]|[=]]); eauto.
  - intros A B T. by destruct A, B; simpl; intros [= <-].
  - intros V. destruct V; simpl; split;
      try (intros ([? [=]] & _ & _)); try (intros [[=]|[=]]); eauto.
  - intros V D. destruct V; simpl; intros [= <-]; simpl; split;
      try done; intros [=].
Qed.

(** * The further properties on the worked ledger *)

Lemma get_succeeds_at_the_declared_type_only_witness :
  (∃ hd, get T_Symmetric "stress"%string example_machine
           = (example_machine, Ok hd)) ∧
  ¬ (∃ hd, get T_RankTwo "stress"%string example_machine
             = (example_machine, Ok hd)) ∧
  ∀ U hd, get U "hardening"%string example_machine
            = (example_machine, Ok hd) →
          U = T_double ∧ hd = ScalarRef Mutable (mkPtr 2 6).
Proof.
  destruct (get_succeeds_at_the_declared_type_only 0%Z) as [Hone Hdecl].
  pose proof (Hdecl true nullptr heap0 example_decls example_machine 0
                "stress"%string T_Symmetric) as Hstress.
  split; [|split].
  - apply (Hstress T_Symmetric example_run eq_refl). reflexivity.
  - intros Hex. apply (Hstress T_RankTwo example_run eq_refl) in Hex.
    discriminate Hex.
  - intros U hd Hg.
    assert (get T_double "hardening"%string example_machine
              = (example_machine, Ok (ScalarRef Mutable (mkPtr 2 6)))) as Hd
      by (vm_compute; reflexivity).
    exact (Hone U T_double "hardening"%string example_machine
             example_machine example_machine hd _ Hg Hd).
Defined.

Lemma declarations_keep_existing_slots_witness :
  ∃ s' r,
    add 0%Z T_Vector "damage"%string example_machine = (s', r) ∧
    loc_ (self s') !! "hardening"%string = Some 6 ∧
    type_ (self s') !! "stress"%string = Some TYPE_SYMMETRIC ∧
    7 ≤ size_ (self s').
Proof.
  exists (add 0%Z T_Vector "damage"%string example_machine).1,
         (add 0%Z T_Vector "damage"%string example_machine).2.
  assert (add 0%Z T_Vector "damage"%string example_machine
            = ((add 0%Z T_Vector "damage"%string example_machine).1,
               (add 0%Z T_Vector "damage"%string example_machine).2)) as Hadd
    by (vm_compute; reflexivity).
  destruct (declarations_keep_existing_slots 0%Z) as [Hstep _].
  destruct (Hstep T_Vector "damage"%string example_machine _ _ Hadd)
    as (Hl & Ht & Hsz & _ & _).
  split; [exact Hadd|]. split; [|split].
  - apply (lookup_weaken _ _ _ _ (eq_refl : loc_ (self example_machine)
             !! "hardening"%string = Some 6) Hl).
  - apply (lookup_weaken _ _ _ _ (eq_refl : type_ (self example_machine)
             !! "stress"%string = Some TYPE_SYMMETRIC) Ht).
  - exact Hsz.
Defined.

Lemma declarations_succeed_iff_names_are_new_witness :
  store_ (self owning0) = true ∧
  NoDup example_decls.*1 ∧
  ¬ NoDup [("a"%string, T_double); ("a"%string, T_Vector)].*1 ∧
  (declare_all 0%Z [("a"%string, T_double); ("a"%string, T_Vector)]
     owning0).2 = Throw DuplicateDeclaration.
Proof.
  assert (store_ (self owning0) = true) as Hs by reflexivity.
  destruct (declarations_succeed_iff_names_are_new 0%Z example_decls owning0
              Hs) as [Hiff _].
  destruct (declarations_succeed_iff_names_are_new 0%Z
              [("a"%string, T_double); ("a"%string, T_Vector)] owning0 Hs)
    as [Hiff2 Herr].
  split; [exact Hs|]. split; [|split].
  - apply (proj1 Hiff). exists example_machine. exact example_run.
  - intros Hnd.
    destruct (proj2 Hiff2) as [s' Hrun].
    { split; [exact Hnd|]. intros name _. reflexivity. }
    vm_compute in Hrun. discriminate Hrun.
  - reflexivity.
Defined.

Lemma writing_one_slot_leaves_the_others_witness :
  ∃ m',
    view_write (TensorView T_Symmetric Mutable (mkPtr 2 0))
      [1; 2; 3; 4; 5; 6]%Z (heap example_machine) = Some m' ∧
    view_read (TensorView T_Symmetric Mutable (mkPtr 2 0)) m'
      = Some [1; 2; 3; 4; 5; 6]%Z ∧
    view_read (ScalarRef Mutable (mkPtr 2 6)) m' = Some [0%Z].
Proof.
  destruct (view_write (TensorView T_Symmetric Mutable (mkPtr 2 0))
              [1; 2; 3; 4; 5; 6]%Z (heap example_machine)) as [m'|] eqn:Hw;
    [|vm_compute in Hw; discriminate Hw].
  exists m'. split; [reflexivity|].
  split; [exact (view_write_read _ _ _ _ Hw)|].
  assert (1 ≠ 0) as Hne by discriminate.
  rewrite (writing_one_slot_leaves_the_others 0%Z true nullptr heap0
             example_decls example_machine 0 1
             "stress"%string T_Symmetric "hardening"%string T_double
             (TensorView T_Symmetric Mutable (mkPtr 2 0))
             (ScalarRef Mutable (mkPtr 2 6))
             example_run eq_refl eq_refl (not_eq_sym Hne) eq_refl eq_refl
             _ _ _ Hw).
  reflexivity.
Defined.

Lemma views_alias_the_raw_buffer_witness :
  get T_Symmetric "stress"%string example_machine
    = (example_machine, Ok (TensorView T_Symmetric Mutable (mkPtr 2 0))) ∧
  ∃ m',
    raw_write (Mutable, mkPtr 2 0) 4 9%Z (heap example_machine) = Some m' ∧
    view_read (TensorView T_Symmetric Mutable (mkPtr 2 0)) m'
      = Some [0; 0; 0; 0; 9; 0]%Z.
Proof.
  assert (get T_Symmetric "stress"%string example_machine
    = (example_machine, Ok (TensorView T_Symmetric Mutable (mkPtr 2 0))))
    as Hg by (vm_compute; reflexivity).
  split; [exact Hg|].
  destruct (views_alias_the_raw_buffer Mutable T_Symmetric "stress"%string
              example_machine _ Hg) as (o & qp & Ho & Hp & _ & _ & Hraw & _).
  injection Hp as <-.
  assert (o = 0) as -> by (vm_compute in Ho; congruence).
  destruct (raw_write (Mutable, mkPtr 2 0) 4 9%Z (heap example_machine))
    as [m'|] eqn:Hw; [|vm_compute in Hw; discriminate Hw].
  exists m'. split; [reflexivity|].
  exact (Hraw (heap example_machine) m' 4 9%Z [0; 0; 0; 0; 0; 0]%Z
           eq_refl ltac:(simpl; lia) eq_refl Hw).
Defined.

Lemma declaration_order_changes_offsets_only_witness :
  ∃ s2,
    declare_all 0%Z (reverse example_decls) owning0 = (s2, Ok tt) ∧
    size_ (self s2) = 7 ∧
    type_ (self s2) = type_ (self example_machine) ∧
    loc_ (self s2) !! "stress"%string = Some 1 ∧
    loc_ (self example_machine) !! "stress"%string = Some 0.
Proof.
  exists (declare_all 0%Z (reverse example_decls) owning0).1.
  assert (declare_all 0%Z (reverse example_decls) owning0
            = ((declare_all 0%Z (reverse example_decls) owning0).1, Ok tt))
    as Hrun2 by (vm_compute; reflexivity).
  assert (example_decls ≡ₚ reverse example_decls) as Hperm
    by (apply perm_swap).
  destruct (declaration_order_changes_offsets_only 0%Z example_decls
              (reverse example_decls) owning0 example_machine _
              (proj1 (empty_wf true nullptr heap0)) Hperm example_run Hrun2)
    as (Hsz & Ht & _).
  split; [exact Hrun2|]. split; [|split; [|split]].
  - rewrite <- Hsz. reflexivity.
  - symmetry. exact Ht.
  - vm_compute. reflexivity.
  - vm_compute. reflexivity.
Defined.

Lemma dtype_table_witness :
  Vs T_Symmetric = Some (D_value T_Symmetric) ∧
  is_Some (storable (D_value T_Symmetric)) ∧
  GetStorageSize T_Symmetric
    = GetStorageSize T_double * GetStorageSize T_Symmetric ∧
  storable D_SymSymR4 = None.
Proof.
  destruct dtype_table as (_ & _ & HVs & Hst & Hsz & _ & HVV).
  split; [|split; [|split]].
  - apply HVs. exists (D_value T_Symmetric). reflexivity.
  - apply (Hst T_double T_Symmetric (D_value T_Symmetric) eq_refl).
    left. reflexivity.
  - exact (Hsz T_double T_Symmetric T_Symmetric eq_refl).
  - apply (HVV T_Symmetric D_SymSymR4 eq_refl). reflexivity.
Defined.
